(** * Deep Q-learning on Cart-Pole: replay memory and training loop

    A shallow embedding of the notebook [Q-learning-cart]: the [Memory]
    class (a bounded [collections.deque] with random mini-batch sampling),
    the exploration schedule, the pre-population loop and the training loop.

    Conventions.
    - Python floats are idealised as real numbers ([R]); where rounding
      decides a property the arithmetic is given with its rounding
      ([explore_p_fl]) or in binary64 ([Binary64]).
    - The simulator ([env]), the random generator ([np.random] and
      [env.action_space.sample]) and the Q-network ([sess.run]) are external
      collaborators: they are abstract state types with transition functions,
      bound as section variables.
    - Python exceptions are the [Raise] case of [result]. *)

From Stdlib Require Import List Arith Lia Bool Permutation.
From Stdlib Require Import Reals Lra.
From Corelib Require PrimFloat.
Import ListNotations.

Set Implicit Arguments.

(** ** Exceptions *)

Inductive message : Type :=
| larger_sample_than_population   (* np.random.choice, replace=False *)
| cannot_feed_value_of_shape.     (* sess.run on an empty batch *)

Inductive exn : Type :=
| ValueError (m : message)
| IndexError   (* subscript out of range *)
| NameError.   (* read of the unbound name [loss] *)

Inductive result (A : Type) : Type :=
| Ok (a : A)
| Raise (e : exn).

Arguments Ok {A} a.
Arguments Raise {A} e.

Definition bind {A B : Type} (r : result A) (k : A -> result B) : result B :=
  match r with
  | Ok a => k a
  | Raise e => Raise e
  end.

Notation "x <- r ;; k" := (bind r (fun x => k))
  (at level 61, r at next level, right associativity).
Notation "' p <- r ;; k" := (bind r (fun p => k))
  (at level 61, p pattern, r at next level, right associativity).

Fixpoint mapM {A B : Type} (f : A -> result B) (l : list A) : result (list B) :=
  match l with
  | [] => Ok []
  | a :: l' => b <- f a ;; bs <- mapM f l' ;; Ok (b :: bs)
  end.

(** ** [np.random.choice(np.arange(n), size=size, replace=False)]

    The library draws a permutation of the population and keeps its first
    [size] entries; it refuses a sample larger than the population.  The
    permutation [perm] is the generator's draw. *)

Definition np_random_choice (perm : list nat) (n size : nat) : result (list nat) :=
  if n <? size then Raise (ValueError larger_sample_than_population)
  else Ok (firstn size perm).

(** All arrangements of [k] distinct members of [pool]; with [k] the size of
    the pool these are the permutations the generator chooses from. *)

Fixpoint arrangements (k : nat) (pool : list nat) : list (list nat) :=
  match k with
  | 0 => [[]]
  | S k' =>
      flat_map (fun x => map (cons x) (arrangements k' (remove Nat.eq_dec x pool)))
               pool
  end.

Definition permutations_of (n : nat) : list (list nat) :=
  arrangements n (seq 0 n).

Definition list_nat_eqb (a b : list nat) : bool :=
  if list_eq_dec Nat.eq_dec a b then true else false.

(** Whether a call returned the value [x]. *)

Definition returns {A : Type} (eqb : A -> A -> bool) (r : result A) (x : A)
  : bool :=
  match r with
  | Ok a => eqb a x
  | Raise _ => false
  end.

(** How many of the generator's permutations of [arange(n)] make
    [np.random.choice(np.arange(n), size, replace=False)] return [idx]. *)

Definition choice_draws (n size : nat) (idx : list nat) : nat :=
  length (filter (fun perm =>
                    returns list_nat_eqb (np_random_choice perm n size) idx)
                 (permutations_of n)).

(** ** class Memory *)

Module Memory.
Section WithElem.
Variable T : Type.

(** [collections.deque(maxlen=max_size)] *)
Record t : Type := mk { maxlen : nat; buffer : list T }.

(** [deque.append]: push on the right, then drop from the left when the
    length went over [maxlen]. *)
Definition deque_append (maxlen : nat) (d : list T) (x : T) : list T :=
  let d' := d ++ [x] in
  if maxlen <? length d' then tl d' else d'.

Definition init (max_size : nat) : t :=
  {| maxlen := max_size; buffer := [] |}.

Definition add (self : t) (experience : T) : t :=
  {| maxlen := maxlen self;
     buffer := deque_append (maxlen self) (buffer self) experience |}.

Definition getitem (d : list T) (ii : nat) : result T :=
  match nth_error d ii with
  | Some x => Ok x
  | None => Raise IndexError
  end.

(** [perm] is the permutation the generator draws inside
    [np.random.choice]. *)
Definition sample (self : t) (perm : list nat) (batch_size : nat)
  : result (list T) :=
  idx <- np_random_choice perm (length (buffer self)) batch_size ;;
  mapM (getitem (buffer self)) idx.

(** A sequence of [add] calls. *)
Definition add_all (self : t) (xs : list T) : t :=
  fold_left add xs self.

End WithElem.
End Memory.

Arguments Memory.mk {T} maxlen buffer.
Arguments Memory.maxlen {T} t.
Arguments Memory.buffer {T} t.
Arguments Memory.init {T} max_size.
Arguments Memory.add {T} self experience.
Arguments Memory.sample {T} self perm batch_size.
Arguments Memory.add_all {T} self xs.
Arguments Memory.deque_append {T} maxlen d x.
Arguments Memory.getitem {T} d ii.

(** How many of the generator's permutations make [self.sample(batch_size)]
    return the list [out]. *)
Definition sample_draws {T : Type} (eq_dec : forall x y : T, {x = y} + {x <> y})
  (self : Memory.t T) (batch_size : nat) (out : list T) : nat :=
  length (filter (fun perm =>
                    returns (fun a b => if list_eq_dec eq_dec a b
                                        then true else false)
                            (Memory.sample self perm batch_size) out)
                 (permutations_of (length (Memory.buffer self)))).

(** The last [C] entries of a list. *)
Definition lastn {T : Type} (C : nat) (l : list T) : list T :=
  skipn (length l - C) l.

(** The entries of [d] at the positions [idx], positions out of range
    skipped. *)
Definition gather {T : Type} (d : list T) (idx : list nat) : list T :=
  flat_map (fun i => match nth_error d i with Some x => [x] | None => [] end)
           idx.

(** ** Transitions and hyperparameters *)

Definition State : Type := list R.

(** The tuple [(state, action, reward, next_state)]. *)
Definition Transition : Type := (State * nat * R * State)%type.

Definition np_zeros (shape : nat) : State := repeat 0%R shape.

(** Component-wise [==] of two rows followed by [.all()]; all states have the
    simulator's dimension, rows of different lengths do not compare equal. *)
Fixpoint row_eqb (a b : State) : bool :=
  match a, b with
  | [], [] => true
  | x :: a', y :: b' => (if Req_dec_T x y then true else false) && row_eqb a' b'
  | _, _ => false
  end.

(** [np.argmax] of a row of two Q-values: the first maximal index. *)
Definition np_argmax (Qs : R * R) : nat :=
  if Rlt_dec (fst Qs) (snd Qs) then 1 else 0.

(** [np.max(..., axis=1)] on a row of two Q-values. *)
Definition np_max (Qs : R * R) : R := Rmax (fst Qs) (snd Qs).

Definition py_range (start stop : nat) : list nat := seq start (stop - start).

Record Config : Type := {
  train_episodes : nat;
  max_steps : nat;
  gamma : R;
  explore_start : R;
  explore_stop : R;
  decay_rate : R;
  memory_size : nat;
  batch_size : nat;
  pretrain_length : nat
}.

(** The hyperparameter cell of the notebook. *)
Definition hyperparameters : Config := {|
  train_episodes := 1000;
  max_steps := 200;
  gamma := 99 / 100;
  explore_start := 1;
  explore_stop := 1 / 100;
  decay_rate := 1 / 10000;
  memory_size := 10000;
  batch_size := 20;
  pretrain_length := 20
|}.

(** [explore_stop + (explore_start - explore_stop)*np.exp(-decay_rate*step)]
    in exact arithmetic. *)
Definition explore_p (cfg : Config) (step : nat) : R :=
  explore_stop cfg
  + (explore_start cfg - explore_stop cfg) * exp (- decay_rate cfg * INR step).

(** The same expression as floating-point arithmetic computes it: every
    operation returns the rounding [rnd] of its exact result, the integer
    [step] is converted to a float, the sign change is exact, and [fexp] is
    [np.exp] on floats. *)
Definition explore_p_fl (rnd fexp : R -> R) (cfg : Config) (step : nat) : R :=
  rnd (explore_stop cfg
       + rnd (rnd (explore_start cfg - explore_stop cfg)
              * fexp (rnd (- decay_rate cfg * rnd (INR step)))))%R.

(** The last three operations in binary64, [e] being the value [np.exp]
    returned. *)
Module Binary64.
Import PrimFloat.

Definition explore_p (explore_stop explore_start e : float) : float :=
  (explore_stop + (explore_start - explore_stop) * e)%float.

End Binary64.

(** ** The notebook's cells over abstract collaborators *)

Section Notebook.

Variable cfg : Config.

(** The simulator: [env.reset()] (its returned observation is discarded by
    the notebook) and [env.step(action)] giving [(next_state, reward, done)]. *)
Variable Env : Type.
Variable env_reset : Env -> Env.
Variable env_step : Env -> nat -> Env * (State * R * bool).

(** The random generators: [env.action_space.sample()], [np.random.rand()]
    and the permutation drawn inside [np.random.choice]. *)
Variable Rng : Type.
Variable action_space_sample : Rng -> Rng * nat.
Variable np_random_rand : Rng -> Rng * R.
Variable np_random_permutation : Rng -> nat -> Rng * list nat.

(** The Q-network: [sess.run(mainQN.output, ...)] on one row, and
    [sess.run([mainQN.loss, mainQN.opt], ...)] on (states, targets, actions),
    giving the updated network and the loss. *)
Variable Net : Type.
Variable predict : Net -> State -> R * R.
Variable optimize : Net -> list State -> list R -> list nat -> Net * R.

(** Variables shared by the pre-population cell and the training cell. *)
Record Sim : Type := {
  env : Env;
  rng : Rng;
  state : State;
  memory : Memory.t Transition
}.

(** Variables of the training cell; [loss] is unbound until the first update. *)
Record Train : Type := {
  sim : Sim;
  net : Net;
  step : nat;
  loss : option R;
  rewards_list : list (nat * R);
  stdout : list (nat * R * R * R)
}.

(** [env.reset()] followed by
    [state, reward, done, _ = env.step(env.action_space.sample())]. *)
Definition start_new_episode (e : Env) (g : Rng) : Env * Rng * State :=
  let e1 := env_reset e in
  let (g1, a) := action_space_sample g in
  let '(e2, (s, _, _)) := env_step e1 a in
  (e2, g1, s).

(** Body of [for ii in range(pretrain_length)]. *)
Definition pretrain_step (s : Sim) : Sim :=
  let (g1, action) := action_space_sample (rng s) in
  let '(e1, (next_state, reward, done)) := env_step (env s) action in
  if done then
    let next_state := np_zeros (length (state s)) in
    let m := Memory.add (memory s) (state s, action, reward, next_state) in
    let '(e2, g2, s2) := start_new_episode e1 g1 in
    {| env := e2; rng := g2; state := s2; memory := m |}
  else
    let m := Memory.add (memory s) (state s, action, reward, next_state) in
    {| env := e1; rng := g1; state := next_state; memory := m |}.

(** What the simulator answers to the random action of a pre-population
    step. *)
Definition pretrain_action (s : Sim) : nat := snd (action_space_sample (rng s)).
Definition pretrain_response (s : Sim) : State * R * bool :=
  snd (env_step (env s) (pretrain_action s)).

(** The pre-population cell. *)
Definition populate (e0 : Env) (g0 : Rng) : Sim :=
  let '(e, g, s) := start_new_episode e0 g0 in
  Nat.iter (pretrain_length cfg) pretrain_step
    {| env := e; rng := g; state := s; memory := Memory.init (memory_size cfg) |}.

(** Target of one row of the mini-batch: the network's values at
    [next_state], set to [(0, 0)] where [next_state] equals the zero vector
    of [states[0].shape], then [reward + gamma * max]. *)
Definition target_Q (n : Net) (shape : nat) (each : Transition) : R * R :=
  let next_state := snd each in
  let episode_end := row_eqb next_state (np_zeros shape) in
  if episode_end then (0, 0)%R else predict n next_state.

Definition target (n : Net) (shape : nat) (each : Transition) : R :=
  let reward := snd (fst each) in
  (reward + gamma cfg * np_max (target_Q n shape each))%R.

(** From the mini-batch to the update: arrays, targets, one optimizer step. *)
Definition train_on_batch (n : Net) (batch : list Transition) : result (Net * R) :=
  let states := map (fun each => fst (fst (fst each))) batch in
  let actions := map (fun each => snd (fst (fst each))) batch in
  match states with
  | [] => Raise (ValueError cannot_feed_value_of_shape)
  | s0 :: _ =>
      let targets := map (target n (length s0)) batch in
      Ok (optimize n states targets actions)
  end.

Definition read_loss (l : option R) : result R :=
  match l with
  | Some v => Ok v
  | None => Raise NameError
  end.

(** First part of the body of [while t < max_steps]: explore or exploit. *)
Definition select_action (st : Train) : Rng * nat :=
  let p := explore_p cfg (S (step st)) in
  let (g1, u) := np_random_rand (rng (sim st)) in
  if Rgt_dec p u then action_space_sample g1
  else (g1, np_argmax (predict (net st) (state (sim st)))).

(** What the simulator answers to the selected action. *)
Definition chosen_action (st : Train) : nat := snd (select_action st).
Definition response (st : Train) : State * R * bool :=
  snd (env_step (env (sim st)) (chosen_action st)).
Definition observed (st : Train) : State := fst (fst (response st)).
Definition reward_received (st : Train) : R := snd (fst (response st)).
Definition done_reported (st : Train) : bool := snd (response st).

(** Second part: take the action, account for the reward, log the episode
    when it is over, store the transition.  Returns [total_reward], [t], the
    simulation variables, [rewards_list] and the printed lines. *)
Definition interact (ep : nat) (total_reward : R) (t : nat) (st : Train)
  : result (R * nat * Sim * list (nat * R) * list (nat * R * R * R)) :=
  let s := sim st in
  let p := explore_p cfg (S (step st)) in
  let (g2, action) := select_action st in
  let '(e1, (next_state, reward, done)) := env_step (env s) action in
  let total_reward := (total_reward + reward)%R in
  if done then
    let next_state := np_zeros (length (state s)) in
    let t := max_steps cfg in
    l <- read_loss (loss st) ;;
    let out := stdout st ++ [(ep, total_reward, l, p)] in
    let rl := rewards_list st ++ [(ep, total_reward)] in
    let m := Memory.add (memory s) (state s, action, reward, next_state) in
    let '(e2, g3, s2) := start_new_episode e1 g2 in
    Ok (total_reward, t,
        {| env := e2; rng := g3; state := s2; memory := m |}, rl, out)
  else
    let m := Memory.add (memory s) (state s, action, reward, next_state) in
    Ok (total_reward, t + 1,
        {| env := e1; rng := g2; state := next_state; memory := m |},
        rewards_list st, stdout st).

(** Third part: sample a mini-batch and train the network on it. *)
Definition learn (s : Sim) (n : Net) : result (Rng * Net * R) :=
  let (g, perm) :=
    np_random_permutation (rng s) (length (Memory.buffer (memory s))) in
  batch <- Memory.sample (memory s) perm (batch_size cfg) ;;
  '(n', l') <- train_on_batch n batch ;;
  Ok (g, n', l').

(** Body of [while t < max_steps]; returns the new [total_reward] and [t]. *)
Definition train_step (ep : nat) (total_reward : R) (t : nat) (st : Train)
  : result (R * nat * Train) :=
  '(total_reward', t', s', rl, out) <- interact ep total_reward t st ;;
  '(g, n', l') <- learn s' (net st) ;;
  Ok (total_reward', t',
      {| sim := {| env := env s'; rng := g; state := state s';
                   memory := memory s' |};
         net := n'; step := S (step st); loss := Some l';
         rewards_list := rl; stdout := out |}).

(** [while t < max_steps]: every iteration raises [t], so [max_steps - t]
    iterations of fuel are enough. *)
Fixpoint while_loop (fuel : nat) (ep : nat) (total_reward : R) (t : nat)
  (st : Train) : result (R * Train) :=
  match fuel with
  | 0 => Ok (total_reward, st)
  | S fuel' =>
      if t <? max_steps cfg then
        '(total_reward', t', st') <- train_step ep total_reward t st ;;
        while_loop fuel' ep total_reward' t' st'
      else Ok (total_reward, st)
  end.

(** One pass of the body of [for ep in range(1, train_episodes)]. *)
Definition run_episode (ep : nat) (st : Train) : result (R * Train) :=
  let total_reward := 0%R in
  let t := 0 in
  while_loop (max_steps cfg) ep total_reward t st.

Fixpoint for_episodes (eps : list nat) (st : Train) : result Train :=
  match eps with
  | [] => Ok st
  | ep :: eps' =>
      '(_, st') <- run_episode ep st ;;
      for_episodes eps' st'
  end.

(** The variables at the start of the training cell: [step = 0],
    [rewards_list = []], and no [loss] yet. *)
Definition fresh (s : Sim) (n0 : Net) : Train :=
  {| sim := s; net := n0; step := 0; loss := None;
     rewards_list := []; stdout := [] |}.

(** The training cell, from the variables the earlier cells left behind. *)
Definition train (s : Sim) (n0 : Net) : result Train :=
  for_episodes (py_range 1 (train_episodes cfg)) (fresh s n0).

(** The simulation variables hold enough transitions for a mini-batch. *)
Definition populated (s : Sim) : Prop :=
  batch_size cfg <= Memory.maxlen (memory s)
  /\ batch_size cfg <= length (Memory.buffer (memory s)).

(** Pre-population followed by training. *)
Definition notebook (e0 : Env) (g0 : Rng) (n0 : Net) : result Train :=
  train (populate e0 g0) n0.

(** Whether the loop, run from [t], meets a step at which the simulator
    reports [done]. *)
Fixpoint done_in_loop (fuel : nat) (ep : nat) (total_reward : R) (t : nat)
  (st : Train) : bool :=
  match fuel with
  | 0 => false
  | S fuel' =>
      if t <? max_steps cfg then
        match train_step ep total_reward t st with
        | Ok (total_reward', t', st') =>
            if done_reported st then true
            else done_in_loop fuel' ep total_reward' t' st'
        | Raise _ => false
        end
      else false
  end.

(** Whether episode [ep], run from [st], ends because [done] is reported
    (rather than because [t] reaches [max_steps]). *)
Definition episode_ends_by_done (ep : nat) (st : Train) : bool :=
  done_in_loop (max_steps cfg) ep 0%R 0 st.

End Notebook.

(** ** Concrete collaborators, used to run the cells on small inputs *)

Module Demo.

(** A scripted simulator: each [step] plays the next scripted response;
    when the script is over the cart sits at the origin and the episode goes
    on.  [reset] leaves the script alone. *)
Definition Env : Type := list (State * R * bool).

Definition env_reset (e : Env) : Env := e.

Definition env_step (e : Env) (action : nat) : Env * (State * R * bool) :=
  match e with
  | [] => ([], ([0; 0; 0; 0]%R, 1%R, false))
  | r :: e' => (e', r)
  end.

(** A generator that always answers the same. *)
Definition Rng : Type := unit.
Definition action_space_sample (g : Rng) : Rng * nat := (g, 0).
Definition np_random_rand (g : Rng) : Rng * R := (g, 0%R).
Definition np_random_permutation (g : Rng) (n : nat) : Rng * list nat :=
  (g, seq 0 n).

(** A network that values every state at (2, 3) and reports loss 0. *)
Definition Net : Type := unit.
Definition predict (n : Net) (s : State) : R * R := (2, 3)%R.
Definition optimize (n : Net) (states : list State) (targets : list R)
  (actions : list nat) : Net * R := (n, 0%R).

(** Three episodes of at most two steps, mini-batches of one. *)
Definition small : Config := {|
  train_episodes := 3;
  max_steps := 2;
  gamma := 99 / 100;
  explore_start := 1;
  explore_stop := 1 / 100;
  decay_rate := 1 / 10000;
  memory_size := 3;
  batch_size := 1;
  pretrain_length := 1
|}.

Definition s0 : State := [1; 1; 1; 1]%R.
Definition s1 : State := [2; 2; 2; 2]%R.

Definition sim0 (script : Env) : Sim Env Rng :=
  {| env := script; rng := tt; state := s0; memory := Memory.init 3 |}.

Definition train0 (script : Env) (l : option R) : Train Env Rng Net :=
  {| sim := sim0 script; net := tt; step := 0; loss := l;
     rewards_list := []; stdout := [] |}.

Definition pretrain_step := pretrain_step env_reset env_step action_space_sample.
Definition select_action : Train Env Rng Net -> Rng * nat :=
  select_action small action_space_sample np_random_rand predict.
Definition train_step :=
  train_step small env_reset env_step action_space_sample np_random_rand
    np_random_permutation predict optimize.
Definition run_episode :=
  run_episode small env_reset env_step action_space_sample np_random_rand
    np_random_permutation predict optimize.
Definition train :=
  train small env_reset env_step action_space_sample np_random_rand
    np_random_permutation predict optimize.

End Demo.

(** The memory of the training state [st] has capacity [C] and holds
    [min(C, k + step)] transitions. *)
Definition tracks {Env Rng Net : Type} (C k : nat) (st : Train Env Rng Net)
  : Prop :=
  Memory.maxlen (memory (sim st)) = C
  /\ length (Memory.buffer (memory (sim st))) = Nat.min C (k + step st).

(** Both vectors of a transition have [d] components. *)
Definition shaped (d : nat) (each : Transition) : Prop :=
  length (fst (fst (fst each))) = d /\ length (snd each) = d.

(** ** The other cells of the notebook *)

(** *** [running_mean] and the slices it takes *)

Fixpoint cumsum_from (acc : R) (l : list R) : list R :=
  match l with
  | [] => []
  | x :: l' => (acc + x)%R :: cumsum_from (acc + x)%R l'
  end.

(** [np.cumsum] of a one-dimensional array. *)
Definition np_cumsum (l : list R) : list R := cumsum_from 0%R l.

(** [a[N:]] *)
Definition slice_from {A : Type} (N : nat) (a : list A) : list A := skipn N a.

(** [a[:-N]]; since [-0] is [0], [a[:-0]] is the empty slice [a[:0]]. *)
Definition slice_until_minus {A : Type} (N : nat) (a : list A) : list A :=
  if N =? 0 then [] else firstn (length a - N) a.

(** [a[-N:]]; [a[-0:]] is the whole of [a]. *)
Definition slice_last {A : Type} (N : nat) (a : list A) : list A :=
  if N =? 0 then a else skipn (length a - N) a.

(** [a - b] on one-dimensional arrays, with numpy's broadcasting: equal
    lengths, or one operand of length one; anything else is the
    "operands could not be broadcast together" [ValueError], here [None]. *)
Definition np_subtract (a b : list R) : option (list R) :=
  if length a =? length b then
    Some (map (fun p => (fst p - snd p)%R) (combine a b))
  else if length a =? 1 then Some (map (fun y => (hd 0%R a - y)%R) b)
  else if length b =? 1 then Some (map (fun x => (x - hd 0%R b)%R) a)
  else None.

(** [cumsum = np.cumsum(np.insert(x, 0, 0))];
    [return (cumsum[N:] - cumsum[:-N]) / N] *)
Definition running_mean (x : list R) (N : nat) : option (list R) :=
  let cumsum := np_cumsum (0%R :: x) in
  option_map (map (fun d => (d / INR N)%R))
             (np_subtract (slice_from N cumsum) (slice_until_minus N cumsum)).

(** Sum of a window of [x]: the entries [x[i], ..., x[i + N - 1]]. *)
Definition window_sum (x : list R) (i N : nat) : R :=
  fold_right Rplus 0%R (firstn N (skipn i x)).

(** The plotting cell: [eps, rews = np.array(rewards_list).T] (unpacking
    fails on an empty log), [smoothed_rews = running_mean(rews, 10)], and
    the two arguments of the first [plt.plot]. *)
Definition smoothed_plot (rewards_list : list (nat * R))
  : option (list nat * list R) :=
  match rewards_list with
  | [] => None
  | _ :: _ =>
      let eps := map fst rewards_list in
      let rews := map snd rewards_list in
      match running_mean rews 10 with
      | None => None
      | Some smoothed_rews =>
          Some (slice_last (length smoothed_rews) eps, smoothed_rews)
      end
  end.

(** *** The loss of [class QNetwork] *)

Module QNetwork.

(** [tf.one_hot(index, depth)]: a row of zeros, with a one at [index] when
    [index] is below [depth]. *)
Definition tf_one_hot (index depth : nat) : list R :=
  map (fun i => if i =? index then 1%R else 0%R) (seq 0 depth).

(** [tf.multiply] on two rows. *)
Definition tf_multiply (a b : list R) : list R :=
  map (fun p => (fst p * snd p)%R) (combine a b).

Definition tf_reduce_sum (l : list R) : R := fold_right Rplus 0%R l.

Definition tf_reduce_mean (l : list R) : R :=
  (tf_reduce_sum l / INR (length l))%R.

(** [self.Q = tf.reduce_sum(tf.multiply(self.output, one_hot_actions), axis=1)] *)
Definition Q (action_size : nat) (output : list (list R)) (actions_ : list nat)
  : list R :=
  map (fun p => tf_reduce_sum (tf_multiply (fst p)
                                 (tf_one_hot (snd p) action_size)))
      (combine output actions_).

(** [self.loss = tf.reduce_mean(tf.square(self.targetQs_ - self.Q))] *)
Definition loss (targetQs_ Qs : list R) : R :=
  tf_reduce_mean (map (fun p => Rsqr (fst p - snd p)) (combine targetQs_ Qs)).

End QNetwork.

(** *** The cell that plays random actions and shows the last rewards *)

Section RandomPlay.

Variable Env : Type.
Variable env_reset : Env -> Env.
Variable env_step : Env -> nat -> Env * (State * R * bool).
Variable Rng : Type.
Variable action_space_sample : Rng -> Rng * nat.

(** Body of [for _ in range(100)]: one random action, its reward appended,
    and on [done] the list emptied and the simulator reset. *)
Definition play_step (w : Env * Rng * list R) : Env * Rng * list R :=
  let '(e, g, rewards) := w in
  let (g1, a) := action_space_sample g in
  let '(e1, (_, reward, done)) := env_step e a in
  let rewards := rewards ++ [reward] in
  if done then (env_reset e1, g1, []) else (e1, g1, rewards).

Definition play (n : nat) (e : Env) (g : Rng) : Env * Rng * list R :=
  Nat.iter n play_step (env_reset e, g, []).

(** [env.reset(); rewards = []; for _ in range(100): ...] and then
    [print(rewards[-20:])]. *)
Definition random_play (e : Env) (g : Rng) : list R :=
  slice_last 20 (snd (play 100 e g)).

End RandomPlay.

(** *** A simulator in the manner of Cart-Pole, for concrete runs *)

Module Ticking.

(** Every step pays 1; the episode is over at every third step. *)
Definition Env : Type := nat.
Definition env_reset (e : Env) : Env := 0.
Definition env_step (e : Env) (action : nat) : Env * (State * R * bool) :=
  (S e, ([INR e; 0; 0; 0]%R, 1%R, e =? 2)).

Definition sim0 : Sim Env Demo.Rng :=
  {| env := 0; rng := tt; state := Demo.s0; memory := Memory.init 3 |}.

(** Hyperparameters asking for mini-batches of five from a memory that is
    pre-populated with one transition. *)
Definition starved : Config := {|
  train_episodes := 3;
  max_steps := 2;
  gamma := 99 / 100;
  explore_start := 1;
  explore_stop := 1 / 100;
  decay_rate := 1 / 10000;
  memory_size := 3;
  batch_size := 5;
  pretrain_length := 1
|}.

End Ticking.

(** * Properties *)

(** ** The replay memory *)

Section MemoryFacts.
Variable T : Type.
Implicit Types (d l xs : list T) (x : T) (m : Memory.t T).

Lemma tl_skipn : forall k l, tl (skipn k l) = skipn (S k) l.
Proof.
  induction k as [|k IH]; intros [|a l]; try reflexivity.
  exact (IH l).
Qed.

Lemma deque_append_lastn : forall C l x,
  Memory.deque_append C (lastn C l) x = lastn C (l ++ [x]).
Proof.
  intros C l x. unfold Memory.deque_append, lastn.
  rewrite !length_app, length_skipn. simpl.
  destruct (Nat.ltb_spec C (length l - (length l - C) + 1)) as [H|H].
  - assert (HC : C <= length l) by lia.
    replace (skipn (length l - C) l ++ [x])
      with (skipn (length l - C) (l ++ [x]))
      by (rewrite skipn_app; replace (length l - C - length l) with 0 by lia;
          reflexivity).
    rewrite tl_skipn. f_equal. lia.
  - assert (HC : length l < C) by lia.
    replace (length l - C) with 0 by lia.
    replace (length l + 1 - C) with 0 by lia. reflexivity.
Qed.

Lemma add_all_lastn : forall xs C l,
  Memory.buffer (Memory.add_all (Memory.mk C (lastn C l)) xs) = lastn C (l ++ xs).
Proof.
  unfold Memory.add_all.
  induction xs as [|x xs IH]; intros C l; simpl.
  - now rewrite app_nil_r.
  - unfold Memory.add at 2. simpl. rewrite deque_append_lastn, IH.
    now rewrite <- app_assoc.
Qed.

Lemma add_all_init : forall C xs,
  Memory.buffer (Memory.add_all (Memory.init C) xs) = lastn C xs.
Proof.
  intros C xs. apply (add_all_lastn xs C []).
Qed.

Lemma length_lastn : forall C l, length (lastn C l) = Nat.min C (length l).
Proof. intros. unfold lastn. rewrite length_skipn. lia. Qed.

Lemma maxlen_add_all : forall xs m,
  Memory.maxlen (Memory.add_all m xs) = Memory.maxlen m.
Proof.
  unfold Memory.add_all. induction xs as [|x xs IH]; intros m; simpl; auto.
  now rewrite IH.
Qed.

Lemma length_deque_append : forall C d x,
  length (Memory.deque_append C d x)
  = if C <? length d + 1 then length d else length d + 1.
Proof.
  intros C d x. unfold Memory.deque_append.
  rewrite length_app. simpl.
  destruct (C <? length d + 1).
  - destruct d; simpl; [reflexivity|]. rewrite length_app. simpl. lia.
  - rewrite length_app. reflexivity.
Qed.

Lemma length_add_ge : forall m x b,
  b <= Memory.maxlen m -> b <= length (Memory.buffer m) ->
  b <= length (Memory.buffer (Memory.add m x)).
Proof.
  intros m x b Hc Hb. simpl. rewrite length_deque_append.
  destruct (Nat.ltb_spec (Memory.maxlen m) (length (Memory.buffer m) + 1)); lia.
Qed.

Lemma length_add_min : forall m x k,
  length (Memory.buffer m) = Nat.min (Memory.maxlen m) k ->
  length (Memory.buffer (Memory.add m x)) = Nat.min (Memory.maxlen m) (S k).
Proof.
  intros m x k Hk. simpl. rewrite length_deque_append.
  destruct (Nat.ltb_spec (Memory.maxlen m) (length (Memory.buffer m) + 1)); lia.
Qed.

(** *** Sampling *)

Lemma mapM_getitem_gather : forall d idx,
  (forall i, In i idx -> i < length d) ->
  mapM (Memory.getitem d) idx = Ok (gather d idx)
  /\ Forall2 (fun i x => nth_error d i = Some x) idx (gather d idx).
Proof.
  intros d. induction idx as [|i idx IH]; intros Hin; simpl.
  - split; [reflexivity | constructor].
  - destruct IH as [IH1 IH2]; [intros; apply Hin; now right|].
    unfold Memory.getitem at 1.
    assert (Hi : i < length d) by (apply Hin; now left).
    apply nth_error_Some in Hi.
    destruct (nth_error d i) as [x|] eqn:E; [|congruence].
    simpl. rewrite IH1. simpl. split; [reflexivity|].
    constructor; assumption.
Qed.

Lemma gather_seq : forall pre d,
  gather (pre ++ d) (seq (length pre) (length d)) = d.
Proof.
  intros pre d. revert pre. induction d as [|x d IH]; intros pre; simpl.
  - reflexivity.
  - rewrite nth_error_app2, Nat.sub_diag by lia. simpl. f_equal.
    specialize (IH (pre ++ [x])).
    rewrite <- app_assoc, length_app in IH. simpl in IH.
    rewrite Nat.add_1_r in IH. exact IH.
Qed.

Lemma gather_permutation : forall d perm,
  Permutation perm (seq 0 (length d)) -> Permutation (gather d perm) d.
Proof.
  intros d perm H.
  rewrite <- (gather_seq [] d) at 2. simpl.
  unfold gather. apply Permutation_flat_map. exact H.
Qed.

End MemoryFacts.

(** C1. For every sequence [xs] of [add] calls on a [Memory] created with
    capacity [C >= 1]: the buffer never holds more than [C] entries; once
    [C + n] items ([n >= 1]) were added it holds exactly the last [C] of them
    in insertion order; and [add] on a full buffer drops exactly the oldest
    entry and appends the new one.  [add] is a total function: it has no
    failing case. *)
Theorem memory_capacity_fifo :
  forall (T : Type) (C : nat) (xs : list T),
    1 <= C ->
    let m := Memory.add_all (Memory.init C) xs in
    length (Memory.buffer m) <= C
    /\ (forall n, 1 <= n -> length xs = C + n ->
          Memory.buffer m = skipn n xs /\ length (Memory.buffer m) = C)
    /\ (forall x, length (Memory.buffer m) = C ->
          Memory.buffer (Memory.add m x) = tl (Memory.buffer m) ++ [x]).
Proof.
  intros T C xs HC m. subst m.
  rewrite add_all_init.
  split; [rewrite length_lastn; lia|]. split.
  - intros n Hn Hlen. split.
    + unfold lastn. f_equal. lia.
    + rewrite length_lastn. lia.
  - intros x Hfull. simpl. rewrite maxlen_add_all. simpl.
    rewrite add_all_init. unfold Memory.deque_append.
    rewrite length_app, Hfull. simpl.
    destruct (Nat.ltb_spec C (C + 1)) as [_|]; [|lia].
    destruct (lastn C xs) as [|a l]; [simpl in Hfull; lia | reflexivity].
Qed.

(** The end-to-end scenario: capacity 3, five transitions added in order. *)
Lemma memory_capacity_fifo_witness :
  1 <= 3
  /\ Memory.buffer (Memory.add_all (Memory.init 3) [1; 2; 3; 4; 5]) = [3; 4; 5].
Proof.
  split; [lia|].
  exact (proj1 (proj1 (proj2 (@memory_capacity_fifo nat 3 [1; 2; 3; 4; 5]
                                (le_n_S 0 2 (Nat.le_0_l 2))))
                      2 (le_n_S 0 1 (Nat.le_0_l 1)) eq_refl)).
Defined.

(** *** Counting the generator's permutations *)

Lemma NoDup_remove_nat : forall (l : list nat) x,
  NoDup l -> NoDup (remove Nat.eq_dec x l).
Proof.
  induction l as [|a l IH]; intros x H; simpl; [constructor|].
  inversion H as [|? ? Ha Hl]; subst.
  destruct (Nat.eq_dec x a); [now apply IH|].
  constructor; [|now apply IH].
  intros Hin. apply in_remove in Hin. tauto.
Qed.

Lemma length_remove_NoDup : forall (l : list nat) x,
  NoDup l -> In x l -> S (length (remove Nat.eq_dec x l)) = length l.
Proof.
  induction l as [|a l IH]; intros x H Hin; simpl in *; [tauto|].
  inversion H as [|? ? Ha Hl]; subst.
  destruct (Nat.eq_dec x a) as [->|Hne].
  - now rewrite notin_remove.
  - simpl. f_equal. apply IH; [assumption|]. destruct Hin; congruence.
Qed.

Lemma in_arrangements : forall k pool p,
  In p (arrangements k pool) <-> NoDup p /\ length p = k /\ incl p pool.
Proof.
  induction k as [|k IH]; intros pool p; simpl.
  - split.
    + intros [<-|[]]. repeat split; [constructor | intros ? []].
    + intros (_ & Hlen & _). left. destruct p; [reflexivity | discriminate].
  - rewrite in_flat_map. split.
    + intros (x & Hx & Hp). apply in_map_iff in Hp.
      destruct Hp as (q & <- & Hq). apply IH in Hq.
      destruct Hq as (Hnd & Hlen & Hincl). repeat split.
      * constructor; [|assumption].
        intros Hxq. apply Hincl, in_remove in Hxq. tauto.
      * simpl. now f_equal.
      * intros y [<-|Hy]; [assumption|].
        apply Hincl, in_remove in Hy. tauto.
    + intros (Hnd & Hlen & Hincl). destruct p as [|x q]; [discriminate|].
      inversion Hnd as [|? ? Hx Hq]; subst.
      exists x. split; [apply Hincl; now left|].
      apply in_map, IH. repeat split; [assumption | now inversion Hlen |].
      intros y Hy. apply in_in_remove; [congruence|].
      apply Hincl. now right.
Qed.

(** [permutations_of n] lists exactly the permutations of [arange(n)]. *)
Lemma permutations_of_spec : forall n p,
  In p (permutations_of n) <-> Permutation p (seq 0 n).
Proof.
  intros n p. unfold permutations_of. rewrite in_arrangements. split.
  - intros (Hnd & Hlen & Hincl).
    apply NoDup_Permutation_bis; [assumption | rewrite length_seq; lia | assumption].
  - intros H. repeat split.
    + apply Permutation_NoDup with (seq 0 n); [now symmetry | apply seq_NoDup].
    + rewrite (Permutation_length H). apply length_seq.
    + intros x Hx. now apply (Permutation_in x H).
Qed.

Lemma NoDup_map_cons : forall (x : nat) (l : list (list nat)),
  NoDup l -> NoDup (map (cons x) l).
Proof.
  intros x l H. induction H as [|a l Ha Hl IH]; simpl; constructor; auto.
  intros Hin. apply in_map_iff in Hin. destruct Hin as (b & E & Hb).
  inversion E; subst. contradiction.
Qed.

Lemma NoDup_flat_map_disjoint :
  forall (A B : Type) (f : A -> list B) (l : list A),
    NoDup l ->
    (forall x, In x l -> NoDup (f x)) ->
    (forall x y z, In x l -> In y l -> x <> y -> In z (f x) -> ~ In z (f y)) ->
    NoDup (flat_map f l).
Proof.
  intros A B f l H. induction H as [|a l Ha Hl IH]; intros Hf Hd; simpl.
  - constructor.
  - apply NoDup_app.
    + apply Hf. now left.
    + apply IH.
      * intros x Hx. apply Hf. now right.
      * intros x y z Hx Hy. apply Hd; now right.
    + intros z Hz Hz'. apply in_flat_map in Hz'. destruct Hz' as (y & Hy & Hzy).
      apply (Hd a y z); [now left | now right | congruence | assumption | assumption].
Qed.

(** Each arrangement is listed once. *)
Lemma NoDup_arrangements : forall k pool,
  NoDup pool -> NoDup (arrangements k pool).
Proof.
  induction k as [|k IH]; intros pool H; simpl.
  - constructor; [intros [] | constructor].
  - apply NoDup_flat_map_disjoint; [assumption | |].
    + intros x _. apply NoDup_map_cons, IH, NoDup_remove_nat, H.
    + intros x y z _ _ Hne Hx Hy.
      apply in_map_iff in Hx. destruct Hx as (p & <- & _).
      apply in_map_iff in Hy. destruct Hy as (q & E & _).
      inversion E. congruence.
Qed.

Lemma length_arrangements : forall n pool,
  NoDup pool -> length pool = n -> length (arrangements n pool) = fact n.
Proof.
  induction n as [|n IH]; intros pool Hnd Hlen; simpl; [reflexivity|].
  rewrite flat_map_constant_length with (c := fact n).
  - rewrite Hlen. simpl. reflexivity.
  - intros x Hx. rewrite length_map. apply IH.
    + now apply NoDup_remove_nat.
    + pose proof (@length_remove_NoDup pool x Hnd Hx). lia.
Qed.

Lemma filter_flat_map : forall (A B : Type) (f : B -> bool) (g : A -> list B) l,
  filter f (flat_map g l) = flat_map (fun x => filter f (g x)) l.
Proof.
  intros A B f g l. induction l as [|a l IH]; simpl; [reflexivity|].
  now rewrite filter_app, IH.
Qed.

Lemma list_sum_single : forall (g : nat -> nat) x pool,
  NoDup pool -> In x pool ->
  (forall y, In y pool -> y <> x -> g y = 0) ->
  list_sum (map g pool) = g x.
Proof.
  intros g x pool H. induction H as [|a l Ha Hl IH]; intros Hin Hz; simpl.
  - destruct Hin.
  - destruct (Nat.eq_dec a x) as [->|Hne].
    + assert (E : list_sum (map g l) = 0).
      { clear IH Hin. induction l as [|b l IHl]; simpl; [reflexivity|].
        inversion Hl; subst.
        rewrite (Hz b); [|right; now left | intros ->; apply Ha; now left].
        apply IHl; [|assumption|].
        - intros H'. apply Ha. now right.
        - intros y [<-|Hy] Hyx; [congruence|]. apply Hz; [right; now right | assumption]. }
      lia.
    + rewrite (Hz a); [|now left | assumption]. simpl. apply IH.
      * destruct Hin; [congruence | assumption].
      * intros y Hy. apply Hz. now right.
Qed.

Lemma list_nat_eqb_true : forall a b, list_nat_eqb a b = true <-> a = b.
Proof.
  intros a b. unfold list_nat_eqb.
  destruct (list_eq_dec Nat.eq_dec a b); split; congruence.
Qed.

(** Among the permutations of a pool of [n] members, exactly [(n - k)!]
    start with a given arrangement of [k] of them. *)
Lemma count_prefix : forall k n pool idx,
  NoDup pool -> length pool = n ->
  NoDup idx -> length idx = k -> incl idx pool ->
  length (filter (fun p => list_nat_eqb (firstn k p) idx) (arrangements n pool))
  = fact (n - k).
Proof.
  induction k as [|k IH]; intros n pool idx Hp Hn Hi Hk Hincl.
  - destruct idx; [|discriminate].
    rewrite (filter_ext _ (fun _ => true)), filter_true.
    + rewrite Nat.sub_0_r. now apply length_arrangements.
    + intros p. simpl. reflexivity.
  - destruct idx as [|x idx]; [discriminate|].
    assert (Hx : In x pool) by (apply Hincl; now left).
    destruct n as [|n]; [destruct pool; [destruct Hx | discriminate]|].
    inversion Hi as [|? ? Hxi Hi']; subst.
    simpl arrangements. rewrite filter_flat_map, length_flat_map.
    rewrite (@list_sum_single _ x pool Hp Hx).
    + rewrite filter_map_swap, length_map.
      rewrite (filter_ext _ (fun p => list_nat_eqb (firstn k p) idx)).
      * apply IH.
        -- now apply NoDup_remove_nat.
        -- pose proof (@length_remove_NoDup pool x Hp Hx). lia.
        -- assumption.
        -- now inversion Hk.
        -- intros y Hy. apply in_in_remove; [congruence|]. apply Hincl. now right.
      * intros p. simpl. unfold list_nat_eqb.
        destruct (list_eq_dec Nat.eq_dec (x :: firstn k p) (x :: idx)) as [E|E];
          destruct (list_eq_dec Nat.eq_dec (firstn k p) idx) as [E'|E'];
          try reflexivity; [inversion E; contradiction | subst; contradiction].
    + intros y _ Hne. rewrite filter_map_swap, length_map.
      rewrite (filter_ext _ (fun _ => false)), filter_false; [reflexivity|].
      intros p. simpl. unfold list_nat_eqb.
      destruct (list_eq_dec Nat.eq_dec (y :: firstn k p) (x :: idx)) as [E|E];
        [inversion E; contradiction | reflexivity].
Qed.

Lemma NoDup_firstn : forall (A : Type) k (l : list A), NoDup l -> NoDup (firstn k l).
Proof.
  intros A k l H. rewrite <- (firstn_skipn k l) in H.
  now apply NoDup_app_remove_r in H.
Qed.

Lemma in_firstn : forall (A : Type) k (l : list A) x, In x (firstn k l) -> In x l.
Proof.
  intros A k l x H. rewrite <- (firstn_skipn k l). apply in_or_app. now left.
Qed.

Lemma np_random_choice_ok : forall perm n k,
  k <= n -> np_random_choice perm n k = Ok (firstn k perm).
Proof.
  intros perm n k H. unfold np_random_choice.
  destruct (Nat.ltb_spec n k); [lia | reflexivity].
Qed.

(** With a genuine draw, [sample] returns the entries at the first
    [batch_size] positions of the draw. *)
Lemma sample_ok : forall (T : Type) (m : Memory.t T) perm k,
  Permutation perm (seq 0 (length (Memory.buffer m))) ->
  k <= length (Memory.buffer m) ->
  Memory.sample m perm k = Ok (gather (Memory.buffer m) (firstn k perm))
  /\ Forall2 (fun i x => nth_error (Memory.buffer m) i = Some x)
       (firstn k perm) (gather (Memory.buffer m) (firstn k perm)).
Proof.
  intros T m perm k Hperm Hk.
  assert (Hrange : forall i, In i (firstn k perm) ->
                             i < length (Memory.buffer m)).
  { intros i Hi. apply in_firstn in Hi.
    apply (Permutation_in i Hperm), in_seq in Hi. lia. }
  destruct (mapM_getitem_gather (Memory.buffer m) (firstn k perm) Hrange)
    as [Hmap Hall].
  split; [|exact Hall].
  unfold Memory.sample. rewrite np_random_choice_ok by exact Hk. exact Hmap.
Qed.

(** On a buffer without repetition, different positions give different
    entries. *)
Lemma gather_inj : forall (T : Type) (d : list T) (a b : list nat),
  NoDup d ->
  (forall i, In i a -> i < length d) ->
  (forall i, In i b -> i < length d) ->
  gather d a = gather d b -> a = b.
Proof.
  intros T d a b Hd. revert b.
  assert (Hcons : forall i l, i < length d ->
             exists x, nth_error d i = Some x
                       /\ gather d (i :: l) = x :: gather d l).
  { intros i l Hi. apply nth_error_Some in Hi.
    destruct (nth_error d i) as [x|] eqn:E; [|congruence].
    exists x. split; [reflexivity|]. unfold gather. simpl. now rewrite E. }
  induction a as [|i a IH]; intros [|j b] Ha Hb E.
  - reflexivity.
  - destruct (Hcons j b (Hb j (or_introl eq_refl))) as (y & _ & Ey).
    rewrite Ey in E. discriminate.
  - destruct (Hcons i a (Ha i (or_introl eq_refl))) as (x & _ & Ex).
    rewrite Ex in E. discriminate.
  - destruct (Hcons i a (Ha i (or_introl eq_refl))) as (x & Hx & Ex).
    destruct (Hcons j b (Hb j (or_introl eq_refl))) as (y & Hy & Ey).
    rewrite Ex, Ey in E. inversion E; subst.
    assert (i = j).
    { apply (proj1 (NoDup_nth_error d) Hd);
        [apply Ha; now left | congruence]. }
    subst j. f_equal. apply IH; [| |assumption].
    + intros k Hk. apply Ha. now right.
    + intros k Hk. apply Hb. now right.
Qed.

Lemma length_le_of_positions : forall (idx : list nat) n,
  NoDup idx -> (forall i, In i idx -> i < n) -> length idx <= n.
Proof.
  intros idx n Hnd Hr.
  assert (Hincl : incl idx (seq 0 n)).
  { intros i Hi. apply in_seq. specialize (Hr i Hi). lia. }
  pose proof (NoDup_incl_length Hnd Hincl) as H.
  now rewrite length_seq in H.
Qed.

(** The number of draws for which [np.random.choice] returns a given
    arrangement of positions. *)
Lemma choice_draws_count : forall n k idx,
  NoDup idx -> length idx = k -> (forall i, In i idx -> i < n) ->
  choice_draws n k idx = fact (n - k).
Proof.
  intros n k idx Hnd Hlen Hr.
  pose proof (length_le_of_positions Hnd Hr) as Hk. rewrite Hlen in Hk.
  unfold choice_draws, permutations_of.
  rewrite (filter_ext (fun perm =>
                         returns list_nat_eqb (np_random_choice perm n k) idx)
                      (fun perm => list_nat_eqb (firstn k perm) idx)).
  - apply count_prefix; [apply seq_NoDup | apply length_seq | assumption
                        | assumption |].
    intros i Hi. apply in_seq. specialize (Hr i Hi). lia.
  - intros perm. now rewrite np_random_choice_ok by exact Hk.
Qed.

(** The number of draws for which [sample] returns the entries at a given
    arrangement of positions, on a buffer without repetition. *)
Lemma sample_draws_count :
  forall (T : Type) (eq_dec : forall x y : T, {x = y} + {x <> y})
         (m : Memory.t T) k idx,
    NoDup (Memory.buffer m) ->
    NoDup idx -> length idx = k ->
    (forall i, In i idx -> i < length (Memory.buffer m)) ->
    sample_draws eq_dec m k (gather (Memory.buffer m) idx)
    = fact (length (Memory.buffer m) - k).
Proof.
  intros T eq_dec m k idx Hb Hnd Hlen Hr.
  pose proof (length_le_of_positions Hnd Hr) as Hk. rewrite Hlen in Hk.
  unfold sample_draws.
  rewrite (filter_ext_in
             (fun perm =>
                returns (fun a b => if list_eq_dec eq_dec a b
                                    then true else false)
                        (Memory.sample m perm k)
                        (gather (Memory.buffer m) idx))
             (fun perm => list_nat_eqb (firstn k perm) idx)).
  - unfold permutations_of.
    apply count_prefix; [apply seq_NoDup | apply length_seq | assumption
                        | assumption |].
    intros i Hi. apply in_seq. specialize (Hr i Hi). lia.
  - intros perm Hin. apply permutations_of_spec in Hin.
    destruct (sample_ok m Hin Hk) as [Hs _]. rewrite Hs. simpl.
    assert (Hrange : forall i, In i (firstn k perm) ->
                               i < length (Memory.buffer m)).
    { intros i Hi. apply in_firstn in Hi.
      apply (Permutation_in i Hin), in_seq in Hi. lia. }
    unfold list_nat_eqb.
    destruct (list_eq_dec eq_dec
                (gather (Memory.buffer m) (firstn k perm))
                (gather (Memory.buffer m) idx)) as [E|E];
      destruct (list_eq_dec Nat.eq_dec (firstn k perm) idx) as [E'|E'];
      try reflexivity.
    + exfalso. apply E'.
      now apply (@gather_inj T (Memory.buffer m) _ _ Hb Hrange Hr).
    + exfalso. apply E. now rewrite E'.
Qed.

(** C2. [sample(k)] on a buffer of [n] entries, with [perm] the permutation
    of [arange(n)] the generator drew.  If [k <= n], [np.random.choice]
    returns the first [k] positions of the draw and [sample] returns the [k]
    entries at these pairwise distinct positions of the buffer (so the
    result is a sub-multiset of the buffer, and has no repetition when the
    buffer has none).  The draw is uniform without replacement: the
    generator's draws are the [n!] permutations of [arange(n)], each listed
    once; every arrangement of [k] distinct positions is what
    [np.random.choice] returns for exactly [(n - k)!] of them, and on a
    buffer without repetition every arrangement of [k] distinct entries is
    what [sample] returns for exactly [(n - k)!] of them.  If [k > n] the
    call raises the insufficient-population [ValueError]. *)
Theorem sample_valid :
  forall (T : Type) (eq_dec : forall x y : T, {x = y} + {x <> y})
         (m : Memory.t T) (perm : list nat) (k : nat),
    Permutation perm (seq 0 (length (Memory.buffer m))) ->
    let n := length (Memory.buffer m) in
    (k <= n ->
       let idx := firstn k perm in
       let out := gather (Memory.buffer m) idx in
       np_random_choice perm n k = Ok idx
       /\ Memory.sample m perm k = Ok out
       /\ length out = k
       /\ NoDup idx
       /\ Forall2 (fun i x => nth_error (Memory.buffer m) i = Some x) idx out
       /\ (exists rest, Permutation (out ++ rest) (Memory.buffer m))
       /\ (NoDup (Memory.buffer m) -> NoDup out))
    /\ (length (permutations_of n) = fact n
        /\ NoDup (permutations_of n)
        /\ forall p, In p (permutations_of n) <-> Permutation p (seq 0 n))
    /\ (forall idx, NoDup idx -> length idx = k ->
          (forall i, In i idx -> i < n) ->
          choice_draws n k idx = fact (n - k)
          /\ (NoDup (Memory.buffer m) ->
                sample_draws eq_dec m k (gather (Memory.buffer m) idx)
                = fact (n - k)))
    /\ (n < k ->
          Memory.sample m perm k
          = Raise (ValueError larger_sample_than_population)).
Proof.
  intros T eq_dec m perm k Hperm n. split; [|split; [|split]].
  - intros Hk idx out. subst idx out.
    assert (Hnd : NoDup perm).
    { apply Permutation_NoDup with (seq 0 n); [now symmetry | apply seq_NoDup]. }
    assert (Hlen : length perm = n).
    { rewrite (Permutation_length Hperm). apply length_seq. }
    destruct (sample_ok m Hperm Hk) as [Hs Hall].
    assert (Hsub : Permutation
                     (gather (Memory.buffer m) (firstn k perm)
                      ++ gather (Memory.buffer m) (skipn k perm))
                     (Memory.buffer m)).
    { unfold gather. rewrite <- flat_map_app, firstn_skipn.
      now apply gather_permutation. }
    repeat split.
    + now apply np_random_choice_ok.
    + exact Hs.
    + rewrite <- (Forall2_length Hall), length_firstn. lia.
    + now apply NoDup_firstn.
    + exact Hall.
    + now exists (gather (Memory.buffer m) (skipn k perm)).
    + intros Hb. apply (Permutation_NoDup (Permutation_sym Hsub)) in Hb.
      now apply NoDup_app_remove_r in Hb.
  - split; [|split].
    + apply length_arrangements; [apply seq_NoDup | apply length_seq].
    + apply NoDup_arrangements, seq_NoDup.
    + intros p. apply permutations_of_spec.
  - intros idx Hnd Hlen Hrange. split.
    + now apply choice_draws_count.
    + intros Hb. now apply sample_draws_count.
  - intros Hk. unfold Memory.sample, np_random_choice. fold n.
    destruct (Nat.ltb_spec n k); [reflexivity | lia].
Qed.

(** The end-to-end scenario: a buffer holding three transitions; [sample(3)]
    is a rearrangement of them and [sample(4)] fails. *)
Lemma sample_valid_witness :
  Permutation [2; 0; 1] (seq 0 3)
  /\ Memory.sample (Memory.mk 3 [30; 40; 50]) [2; 0; 1] 3 = Ok [50; 30; 40]
  /\ sample_draws Nat.eq_dec (Memory.mk 3 [30; 40; 50]) 2 [50; 30] = 1
  /\ Memory.sample (Memory.mk 3 [30; 40; 50]) [2; 0; 1] 4
     = Raise (ValueError larger_sample_than_population).
Proof.
  assert (P : Permutation [2; 0; 1] (seq 0 3)).
  { exact (perm_trans (perm_swap 0 2 [1]) (perm_skip 0 (perm_swap 1 2 []))). }
  split; [exact P|].
  destruct (@sample_valid nat Nat.eq_dec (Memory.mk 3 [30; 40; 50])
              [2; 0; 1] 3 P) as (H3 & _ & _ & _).
  destruct (@sample_valid nat Nat.eq_dec (Memory.mk 3 [30; 40; 50])
              [2; 0; 1] 2 P) as (_ & _ & H2 & _).
  destruct (@sample_valid nat Nat.eq_dec (Memory.mk 3 [30; 40; 50])
              [2; 0; 1] 4 P) as (_ & _ & _ & H4).
  split; [|split].
  - exact (proj1 (proj2 (H3 (le_n 3)))).
  - assert (Hnd : NoDup [2; 0]).
    { repeat constructor; simpl; intuition discriminate. }
    assert (Hr : forall i, In i [2; 0] -> i < 3).
    { intros i [<-|[<-|[]]]; simpl; lia. }
    assert (Hb : NoDup [30; 40; 50]).
    { repeat constructor; simpl; intuition discriminate. }
    exact (proj2 (H2 [2; 0] Hnd eq_refl Hr) Hb).
  - apply H4. simpl. lia.
Defined.

(** ** The exploration schedule *)

Lemma exp_le_1 : forall x : R, (x <= 0)%R -> (exp x <= 1)%R.
Proof.
  intros x [Hx| ->].
  - left. rewrite <- exp_0. now apply exp_increasing.
  - rewrite exp_0. apply Rle_refl.
Qed.

Lemma exp_monotone : forall x y : R, (x <= y)%R -> (exp x <= exp y)%R.
Proof.
  intros x y [H| ->]; [left; now apply exp_increasing | apply Rle_refl].
Qed.

Lemma explore_p_bounds : forall (cfg : Config) (k : nat),
  (0 <= decay_rate cfg)%R ->
  (explore_stop cfg <= explore_start cfg)%R ->
  (explore_stop cfg <= explore_p cfg k <= explore_start cfg)%R.
Proof.
  intros cfg k Hd Hp. unfold explore_p.
  pose proof (exp_pos (- decay_rate cfg * INR k)).
  assert (exp (- decay_rate cfg * INR k) <= 1)%R.
  { apply exp_le_1. pose proof (pos_INR k). nra. }
  split; nra.
Qed.

(** In exact arithmetic: [explore_p] depends on the step and on the three
    constants only, does not increase with the step, stays within
    [[explore_stop, explore_start]] and starts at [explore_start]. *)
Lemma explore_p_schedule :
  forall cfg : Config,
    (0 <= decay_rate cfg)%R ->
    (explore_stop cfg <= explore_start cfg)%R ->
    (forall step,
        explore_p cfg step
        = (explore_stop cfg
           + (explore_start cfg - explore_stop cfg)
             * exp (- decay_rate cfg * INR step))%R)
    /\ (forall cfg' step,
          explore_stop cfg' = explore_stop cfg ->
          explore_start cfg' = explore_start cfg ->
          decay_rate cfg' = decay_rate cfg ->
          explore_p cfg' step = explore_p cfg step)
    /\ (forall s1 s2, s1 < s2 -> (explore_p cfg s1 >= explore_p cfg s2)%R)
    /\ (forall step,
          (explore_stop cfg <= explore_p cfg step <= explore_start cfg)%R)
    /\ explore_p cfg 0 = explore_start cfg.
Proof.
  intros cfg Hd Hp. unfold explore_p.
  split; [reflexivity|]. split; [|split; [|split]].
  - intros cfg' k -> -> ->. reflexivity.
  - intros s1 s2 Hlt. apply Rle_ge, Rplus_le_compat_l.
    apply Rmult_le_compat_l; [lra|]. apply exp_monotone.
    assert (INR s1 <= INR s2)%R by (apply le_INR; lia). nra.
  - intros k. now apply explore_p_bounds.
  - simpl. rewrite Rmult_0_r, exp_0. lra.
Qed.

(** The schedule at the notebook's constants. *)
Lemma explore_p_schedule_witness :
  (0 <= decay_rate hyperparameters)%R
  /\ (explore_stop hyperparameters <= explore_start hyperparameters)%R
  /\ (explore_p hyperparameters 1 >= explore_p hyperparameters 2)%R
  /\ explore_p hyperparameters 0 = 1%R.
Proof.
  assert (H1 : (0 <= decay_rate hyperparameters)%R) by (simpl; lra).
  assert (H2 : (explore_stop hyperparameters <= explore_start hyperparameters)%R)
    by (simpl; lra).
  destruct (explore_p_schedule hyperparameters H1 H2) as (_ & _ & Hm & _ & H0).
  repeat split; [exact H1 | exact H2 | apply Hm; lia | exact H0].
Defined.

(** *** The schedule as floating-point arithmetic computes it *)

Section RoundedSchedule.

(** Rounding to the nearest float: monotone, the identity on floats, and 0
    is a float.  [np.exp] on floats: monotone, never negative, 1 at 0. *)
Variables rnd fexp : R -> R.
Hypothesis rnd_monotone : forall x y : R, (x <= y)%R -> (rnd x <= rnd y)%R.
Hypothesis rnd_idempotent : forall x : R, rnd (rnd x) = rnd x.
Hypothesis rnd_0 : rnd 0%R = 0%R.
Hypothesis fexp_monotone : forall x y : R, (x <= y)%R -> (fexp x <= fexp y)%R.
Hypothesis fexp_nonneg : forall x : R, (0 <= fexp x)%R.
Hypothesis fexp_0 : fexp 0%R = 1%R.

Variable cfg : Config.
Hypothesis stop_is_float : rnd (explore_stop cfg) = explore_stop cfg.
Hypothesis decay_nonneg : (0 <= decay_rate cfg)%R.
Hypothesis stop_le_start : (explore_stop cfg <= explore_start cfg)%R.

Lemma rounded_argument : forall s1 s2 : nat,
  s1 <= s2 ->
  (rnd (- decay_rate cfg * rnd (INR s2))
   <= rnd (- decay_rate cfg * rnd (INR s1)) <= 0)%R.
Proof.
  intros s1 s2 Hs.
  assert (H0 : (0 <= rnd (INR s1))%R).
  { apply Rle_trans with (rnd 0%R); [rewrite rnd_0; apply Rle_refl|].
    apply rnd_monotone, pos_INR. }
  assert (H12 : (rnd (INR s1) <= rnd (INR s2))%R)
    by (apply rnd_monotone, le_INR, Hs).
  split.
  - apply rnd_monotone. nra.
  - apply Rle_trans with (rnd 0%R); [apply rnd_monotone; nra|].
    rewrite rnd_0. apply Rle_refl.
Qed.

Lemma rounded_difference :
  (0 <= rnd (explore_start cfg - explore_stop cfg))%R.
Proof.
  apply Rle_trans with (rnd 0%R); [rewrite rnd_0; apply Rle_refl|].
  apply rnd_monotone. lra.
Qed.

Lemma explore_p_fl_monotone : forall s1 s2 : nat,
  s1 <= s2 ->
  (explore_p_fl rnd fexp cfg s2 <= explore_p_fl rnd fexp cfg s1)%R.
Proof.
  intros s1 s2 Hs. unfold explore_p_fl.
  destruct (@rounded_argument s1 s2 Hs) as [Ha _].
  apply fexp_monotone in Ha.
  pose proof rounded_difference as HD.
  pose proof (fexp_nonneg (rnd (- decay_rate cfg * rnd (INR s2)))) as He.
  apply rnd_monotone, Rplus_le_compat_l, rnd_monotone. nra.
Qed.

Lemma explore_p_fl_0 :
  explore_p_fl rnd fexp cfg 0
  = rnd (explore_stop cfg + rnd (explore_start cfg - explore_stop cfg)).
Proof.
  unfold explore_p_fl. simpl INR.
  rewrite rnd_0, Rmult_0_r, rnd_0, fexp_0, Rmult_1_r, rnd_idempotent.
  reflexivity.
Qed.

(** C4, as the code has it.  The exploration probability is the function
    [p(step) = p_min + (p_max - p_min) * exp(-decay_rate * step)] of the step
    counter and of the three constants alone, each operation rounded to a
    float.  With [decay_rate >= 0] and [p_min <= p_max] it does not increase
    with the step, and stays within [[p_min, p(0)]], where [p(0)] is the
    rounded sum [p_min + (p_max - p_min)]: this is [p_max] when the
    difference [p_max - p_min] is computed exactly, and in exact arithmetic
    the function is [explore_p], with [p(0) = p_max]. *)
Theorem explore_p_rounded_schedule :
  (forall cfg' step,
      explore_stop cfg' = explore_stop cfg ->
      explore_start cfg' = explore_start cfg ->
      decay_rate cfg' = decay_rate cfg ->
      explore_p_fl rnd fexp cfg' step = explore_p_fl rnd fexp cfg step)
  /\ (forall s1 s2,
        s1 < s2 ->
        (explore_p_fl rnd fexp cfg s1 >= explore_p_fl rnd fexp cfg s2)%R)
  /\ (forall step,
        (explore_stop cfg <= explore_p_fl rnd fexp cfg step
         <= explore_p_fl rnd fexp cfg 0)%R)
  /\ explore_p_fl rnd fexp cfg 0
     = rnd (explore_stop cfg + rnd (explore_start cfg - explore_stop cfg))
  /\ (rnd (explore_start cfg - explore_stop cfg)
      = (explore_start cfg - explore_stop cfg)%R ->
      rnd (explore_start cfg) = explore_start cfg ->
      explore_p_fl rnd fexp cfg 0 = explore_start cfg)
  /\ (forall step,
        explore_p_fl (fun x => x) exp cfg step = explore_p cfg step).
Proof.
  split; [|split; [|split; [|split; [|split]]]].
  - intros cfg' k H1 H2 H3. unfold explore_p_fl. now rewrite H1, H2, H3.
  - intros s1 s2 Hlt. apply Rle_ge, explore_p_fl_monotone. lia.
  - intros k. split.
    + unfold explore_p_fl.
      apply Rle_trans with (rnd (explore_stop cfg));
        [rewrite stop_is_float; apply Rle_refl|].
      apply rnd_monotone.
      pose proof rounded_difference as HD.
      pose proof (fexp_nonneg (rnd (- decay_rate cfg * rnd (INR k)))) as He.
      assert (H : (0 <= rnd (rnd (explore_start cfg - explore_stop cfg)
                            * fexp (rnd (- decay_rate cfg * rnd (INR k)))))%R).
      { apply Rle_trans with (rnd 0%R); [rewrite rnd_0; apply Rle_refl|].
        apply rnd_monotone. nra. }
      lra.
    + apply explore_p_fl_monotone. lia.
  - exact explore_p_fl_0.
  - intros Hd Hs. rewrite explore_p_fl_0, Hd.
    replace (explore_stop cfg + (explore_start cfg - explore_stop cfg))%R
      with (explore_start cfg) by lra.
    exact Hs.
  - intros k. reflexivity.
Qed.

End RoundedSchedule.

(** Exact arithmetic is one instance of the rounding; at the notebook's
    constants the schedule starts at [explore_start]. *)
Lemma explore_p_rounded_schedule_witness :
  (forall x y : R, (x <= y)%R -> (x <= y)%R)
  /\ (0 <= decay_rate hyperparameters)%R
  /\ (explore_stop hyperparameters <= explore_start hyperparameters)%R
  /\ explore_p_fl (fun x => x) exp hyperparameters 0
     = explore_start hyperparameters
  /\ (explore_p_fl (fun x => x) exp hyperparameters 1
      >= explore_p_fl (fun x => x) exp hyperparameters 2)%R.
Proof.
  assert (H1 : (0 <= decay_rate hyperparameters)%R) by (simpl; lra).
  assert (H2 : (explore_stop hyperparameters <= explore_start hyperparameters)%R)
    by (simpl; lra).
  pose proof (@explore_p_rounded_schedule (fun x => x) exp
                (fun x y H => H) (fun x => eq_refl) eq_refl
                exp_monotone (fun x => Rlt_le _ _ (exp_pos x)) exp_0
                hyperparameters eq_refl H1 H2) as (_ & Hm & _ & _ & H0 & _).
  split; [exact (fun x y H => H)|]. split; [exact H1|]. split; [exact H2|].
  split; [exact (H0 eq_refl eq_refl) | exact (Hm 1 2 (le_n 2))].
Defined.

Module Binary64Facts.
Import PrimFloat.
#[local] Set Warnings "-inexact-float".

(** C4 as stated fails.  In binary64, with [explore_stop = 0.33] and
    [explore_start = 0.87], at step 0 (where the argument of [np.exp] is
    zero and its value 1) the schedule gives 0.8700000000000001: not
    [explore_start], and above it. *)
Lemma explore_p_start_counterexample :
  PrimFloat.eqb (- 0.0001 * 0)%float 0%float = true
  /\ Binary64.explore_p 0.33 0.87 1 = 0.8700000000000001%float
  /\ PrimFloat.eqb (Binary64.explore_p 0.33 0.87 1) 0.87 = false
  /\ PrimFloat.ltb 0.87 (Binary64.explore_p 0.33 0.87 1) = true.
Proof. repeat split; reflexivity. Qed.

(** At the notebook's own constants the first value is exactly
    [explore_start]. *)
Lemma explore_p_start_notebook :
  Binary64.explore_p 0.01 1 1 = 1%float.
Proof. reflexivity. Qed.

End Binary64Facts.

(** ** Targets of the mini-batch *)

Lemma row_eqb_spec : forall a b : State, row_eqb a b = true <-> a = b.
Proof.
  induction a as [|x a IH]; intros [|y b]; simpl; split; try congruence.
  - intros H. apply andb_true_iff in H. destruct H as [Hx Hr].
    destruct (Req_dec_T x y); [|discriminate]. apply IH in Hr. congruence.
  - intros E. inversion E; subst. apply andb_true_iff. split.
    + destruct (Req_dec_T y y); congruence.
    + now apply IH.
Qed.

Lemma row_eqb_false : forall a b : State, row_eqb a b = false <-> a <> b.
Proof.
  intros a b. rewrite <- row_eqb_spec. destruct (row_eqb a b); split; congruence.
Qed.

Lemma np_max_zero : np_max (0, 0)%R = 0%R.
Proof. unfold np_max. simpl. apply Rmax_left. apply Rle_refl. Qed.

Lemma target_zero_next_state :
  forall cfg (Net : Type) (predict : Net -> State -> R * R) n shape s a r,
    target cfg predict n shape (s, a, r, np_zeros shape) = r.
Proof.
  intros. unfold target, target_Q. simpl.
  rewrite (proj2 (row_eqb_spec _ _) eq_refl), np_max_zero. lra.
Qed.

Lemma target_other_next_state :
  forall cfg (Net : Type) (predict : Net -> State -> R * R) n shape s a r ns,
    ns <> np_zeros shape ->
    target cfg predict n shape (s, a, r, ns)
    = (r + gamma cfg * np_max (predict n ns))%R.
Proof.
  intros. unfold target, target_Q. simpl.
  now rewrite (proj2 (row_eqb_false _ _) H).
Qed.

(** C3, as the code has it.  The target of a sampled transition
    [(s, a, r, next_state)] is [r + gamma * v*], with [v*] the larger of the
    two predicted values at [next_state], whenever the stored [next_state] is
    not the all-zero vector; it is [r] exactly when the stored [next_state]
    is the all-zero vector, which is the case of every terminal transition,
    stored as [(s, a, r, zeros)]. *)
Theorem target_computation :
  forall cfg (Net : Type) (predict : Net -> State -> R * R) (n : Net)
         (shape : nat) (s : State) (a : nat) (r : R) (ns : State),
    (ns <> np_zeros shape ->
       target cfg predict n shape (s, a, r, ns)
       = (r + gamma cfg * Rmax (fst (predict n ns)) (snd (predict n ns)))%R)
    /\ (ns = np_zeros shape -> target cfg predict n shape (s, a, r, ns) = r)
    /\ (length s = shape ->
          target cfg predict n shape (s, a, r, np_zeros (length s)) = r).
Proof.
  intros. split; [|split].
  - intros H. now apply target_other_next_state.
  - intros ->. apply target_zero_next_state.
  - intros ->. apply target_zero_next_state.
Qed.

Lemma target_computation_witness :
  Demo.s1 <> np_zeros 4
  /\ target Demo.small Demo.predict tt 4 (Demo.s0, 0, 1%R, Demo.s1)
     = (1 + 99 / 100 * 3)%R.
Proof.
  assert (H : Demo.s1 <> np_zeros 4).
  { unfold Demo.s1. simpl. intros E. inversion E. lra. }
  split; [exact H|].
  rewrite (proj1 (@target_computation Demo.small Demo.Net Demo.predict tt 4
                    Demo.s0 0 1%R Demo.s1) H).
  simpl. rewrite Rmax_right; lra.
Defined.

(** C3 as stated fails: a transition stored at a step where the simulator
    did not report [done], whose next state is the origin, gets target [r]
    although the network values the origin at 3. *)
Lemma target_nonterminal_counterexample :
  Demo.env_step [([0; 0; 0; 0]%R, 1%R, false)] 0
  = ([], ([0; 0; 0; 0]%R, 1%R, false))
  /\ Memory.buffer
       (memory (Demo.pretrain_step (Demo.sim0 [([0; 0; 0; 0]%R, 1%R, false)])))
     = [(Demo.s0, 0, 1%R, [0; 0; 0; 0]%R)]
  /\ target Demo.small Demo.predict tt 4 (Demo.s0, 0, 1%R, [0; 0; 0; 0]%R)
     = 1%R
  /\ target Demo.small Demo.predict tt 4 (Demo.s0, 0, 1%R, [0; 0; 0; 0]%R)
     <> (1 + gamma Demo.small * np_max (Demo.predict tt [0; 0; 0; 0]%R))%R.
Proof.
  split; [reflexivity|]. split; [reflexivity|].
  assert (E : target Demo.small Demo.predict tt 4
                (Demo.s0, 0, 1%R, [0; 0; 0; 0]%R) = 1%R)
    by apply (@target_zero_next_state Demo.small Demo.Net Demo.predict tt 4).
  split; [exact E|].
  rewrite E. unfold np_max. simpl. rewrite Rmax_right; lra.
Qed.

(** C9. Whether a sampled transition counts as ending an episode is decided
    by comparing its stored [next_state] with the zero vector and by nothing
    else: the target depends on the transition through [reward] and
    [next_state] alone, the network's values are replaced by [(0, 0)] exactly
    when [next_state] is the zero vector, and then the target is [r]; this
    differs from [r + gamma * v*] whenever [gamma * v*] is not zero. *)
Theorem terminality_by_zero_test :
  forall cfg (Net : Type) (predict : Net -> State -> R * R) (n : Net)
         (shape : nat),
    (forall s a s' a' r ns,
        target cfg predict n shape (s, a, r, ns)
        = target cfg predict n shape (s', a', r, ns))
    /\ (forall s a r ns,
          target_Q predict n shape (s, a, r, ns)
          = if row_eqb ns (np_zeros shape) then (0, 0)%R else predict n ns)
    /\ (forall ns, row_eqb ns (np_zeros shape) = true <-> ns = np_zeros shape)
    /\ (forall s a r, target cfg predict n shape (s, a, r, np_zeros shape) = r)
    /\ (forall s a r,
          (gamma cfg * np_max (predict n (np_zeros shape)) <> 0)%R ->
          target cfg predict n shape (s, a, r, np_zeros shape)
          <> (r + gamma cfg * np_max (predict n (np_zeros shape)))%R).
Proof.
  intros. split; [|split; [|split; [|split]]].
  - reflexivity.
  - reflexivity.
  - intros ns. apply row_eqb_spec.
  - intros. apply target_zero_next_state.
  - intros s a r H. rewrite target_zero_next_state. lra.
Qed.

(** ** The pre-population loop and the training loop *)

Section LoopFacts.

Unset Implicit Arguments.

Variable cfg : Config.
Variable Env : Type.
Variable env_reset : Env -> Env.
Variable env_step : Env -> nat -> Env * (State * R * bool).
Variable Rng : Type.
Variable action_space_sample : Rng -> Rng * nat.
Variable np_random_rand : Rng -> Rng * R.
Variable np_random_permutation : Rng -> nat -> Rng * list nat.
Variable Net : Type.
Variable predict : Net -> State -> R * R.
Variable optimize : Net -> list State -> list R -> list nat -> Net * R.

Local Abbreviation Sim' := (Sim Env Rng).
Local Abbreviation Train' := (Train Env Rng Net).
Local Abbreviation start_new_episode' :=
  (start_new_episode env_reset env_step action_space_sample).
Local Abbreviation pretrain_step' :=
  (pretrain_step env_reset env_step action_space_sample).
Local Abbreviation pretrain_action' :=
  (pretrain_action action_space_sample).
Local Abbreviation pretrain_response' :=
  (pretrain_response env_step action_space_sample).
Local Abbreviation populate' :=
  (populate cfg env_reset env_step action_space_sample).
Local Abbreviation select_action' :=
  (select_action cfg action_space_sample np_random_rand predict).
Local Abbreviation chosen_action' :=
  (chosen_action cfg action_space_sample np_random_rand predict).
Local Abbreviation response' :=
  (response cfg env_step action_space_sample np_random_rand predict).
Local Abbreviation observed' :=
  (observed cfg env_step action_space_sample np_random_rand predict).
Local Abbreviation reward_received' :=
  (reward_received cfg env_step action_space_sample np_random_rand predict).
Local Abbreviation done_reported' :=
  (done_reported cfg env_step action_space_sample np_random_rand predict).
Local Abbreviation interact' :=
  (interact cfg env_reset env_step action_space_sample np_random_rand predict).
Local Abbreviation learn' :=
  (learn cfg np_random_permutation predict optimize).
Local Abbreviation train_on_batch' :=
  (train_on_batch cfg predict optimize).
Local Abbreviation train_step' :=
  (train_step cfg env_reset env_step action_space_sample np_random_rand
     np_random_permutation predict optimize).
Local Abbreviation while_loop' :=
  (while_loop cfg env_reset env_step action_space_sample np_random_rand
     np_random_permutation predict optimize).
Local Abbreviation done_in_loop' :=
  (done_in_loop cfg env_reset env_step action_space_sample np_random_rand
     np_random_permutation predict optimize).
Local Abbreviation run_episode' :=
  (run_episode cfg env_reset env_step action_space_sample np_random_rand
     np_random_permutation predict optimize).
Local Abbreviation for_episodes' :=
  (for_episodes cfg env_reset env_step action_space_sample np_random_rand
     np_random_permutation predict optimize).
Local Abbreviation train' :=
  (train cfg env_reset env_step action_space_sample np_random_rand
     np_random_permutation predict optimize).
Local Abbreviation notebook' :=
  (notebook cfg env_reset env_step action_space_sample np_random_rand
     np_random_permutation predict optimize).
Local Abbreviation populated' :=
  (populated cfg (Env := Env) (Rng := Rng)).

Implicit Types (s : Sim') (st : Train') (ep t : nat) (tr : R).

(** The transition a step stores when the simulator reported [done]. *)
Local Abbreviation terminal_of st :=
  (state (sim st), chosen_action' st, reward_received' st,
   np_zeros (length (state (sim st)))).

Lemma pretrain_step_memory : forall s,
  memory (pretrain_step' s)
  = Memory.add (memory s)
      (state s, pretrain_action' s, snd (fst (pretrain_response' s)),
       if snd (pretrain_response' s) then np_zeros (length (state s))
       else fst (fst (pretrain_response' s))).
Proof.
  intros s.
  unfold pretrain_step, pretrain_response,
    pretrain_action.
  destruct (action_space_sample (rng s)) as [g1 action]. simpl.
  destruct (env_step (env s) action) as [e1 [[ns r] d]]. simpl.
  destruct d; [|reflexivity].
  destruct (start_new_episode' e1 g1) as [[e2 g2] s2]. reflexivity.
Qed.

Lemma interact_spec : forall ep tr t st,
  interact' ep tr t st
  = let tr' := (tr + reward_received' st)%R in
    if done_reported' st then
      match loss st with
      | None => Raise NameError
      | Some l =>
          let e := start_new_episode'
                     (fst (env_step (env (sim st)) (chosen_action' st)))
                     (fst (select_action' st)) in
          Ok (tr', max_steps cfg,
              {| env := fst (fst e); rng := snd (fst e); state := snd e;
                 memory := Memory.add (memory (sim st)) (terminal_of st) |},
              rewards_list st ++ [(ep, tr')],
              stdout st ++ [(ep, tr', l, explore_p cfg (S (step st)))])
      end
    else
      Ok (tr', t + 1,
          {| env := fst (env_step (env (sim st)) (chosen_action' st));
             rng := fst (select_action' st);
             state := observed' st;
             memory := Memory.add (memory (sim st))
                         (state (sim st), chosen_action' st,
                          reward_received' st, observed' st) |},
          rewards_list st, stdout st).
Proof.
  intros ep tr t st.
  unfold interact, done_reported,
    reward_received, observed, response,
    chosen_action.
  destruct (select_action' st) as [g2 action]. simpl.
  destruct (env_step (env (sim st)) action) as [e1 [[ns r] d]]. simpl.
  destruct d; [|reflexivity].
  destruct (loss st) as [l|]; simpl; [|reflexivity].
  destruct (start_new_episode' e1 g2) as [[e2 g3] s2]. reflexivity.
Qed.

Lemma train_step_inv : forall ep tr t st tr' t' st',
  train_step' ep tr t st = Ok (tr', t', st') ->
  exists s' rl out g n' l',
    interact' ep tr t st = Ok (tr', t', s', rl, out)
    /\ learn' s' (net st) = Ok (g, n', l')
    /\ st' = {| sim := {| env := env s'; rng := g; state := state s';
                          memory := memory s' |};
                net := n'; step := S (step st); loss := Some l';
                rewards_list := rl; stdout := out |}.
Proof.
  intros ep tr t st tr' t' st' H. unfold train_step in H.
  destruct (interact' ep tr t st) as [[[[[tr1 t1] s'] rl] out]|e] eqn:Ei;
    simpl in H; [|discriminate].
  destruct (learn' s' (net st)) as [[[g n'] l']|e] eqn:El; simpl in H;
    [|discriminate].
  inversion H; subst. exists s', rl, out, g, n', l'. repeat split. exact El.
Qed.

Lemma train_step_raise_name : forall ep tr t st,
  done_reported' st = true -> loss st = None ->
  train_step' ep tr t st = Raise NameError.
Proof.
  intros ep tr t st Hd Hl. unfold train_step.
  rewrite interact_spec. simpl. rewrite Hd, Hl. reflexivity.
Qed.

Lemma train_step_log : forall ep tr t st tr' t' st',
  train_step' ep tr t st = Ok (tr', t', st') ->
  tr' = (tr + reward_received' st)%R
  /\ (done_reported' st = true ->
        t' = max_steps cfg
        /\ rewards_list st' = rewards_list st ++ [(ep, tr')]
        /\ (exists l, loss st = Some l
                      /\ stdout st'
                         = stdout st
                           ++ [(ep, tr', l, explore_p cfg (S (step st)))])
        /\ memory (sim st') = Memory.add (memory (sim st)) (terminal_of st))
  /\ (done_reported' st = false ->
        t' = t + 1
        /\ rewards_list st' = rewards_list st
        /\ stdout st' = stdout st
        /\ memory (sim st')
           = Memory.add (memory (sim st))
               (state (sim st), chosen_action' st, reward_received' st,
                observed' st)).
Proof.
  intros ep tr t st tr' t' st' H.
  apply train_step_inv in H.
  destruct H as (s' & rl & out & g & n' & l' & Hi & _ & ->).
  rewrite interact_spec in Hi. simpl in Hi.
  destruct (done_reported' st).
  - destruct (loss st) as [l|]; [|discriminate].
    inversion Hi; subst. simpl.
    split; [reflexivity|]. split; [|discriminate].
    intros _. repeat split. exists l. split; reflexivity.
  - inversion Hi; subst. simpl.
    split; [reflexivity|]. split; [discriminate|].
    intros _. repeat split.
Qed.

Lemma while_loop_exit : forall fuel ep tr t st,
  max_steps cfg <= t -> while_loop' fuel ep tr t st = Ok (tr, st).
Proof.
  intros [|fuel] ep tr t st H; simpl; [reflexivity|].
  destruct (Nat.ltb_spec t (max_steps cfg)); [lia | reflexivity].
Qed.

(** Fuel beyond [max_steps - t] is never used: the loop leaves through its
    guard. *)
Lemma while_loop_fuel : forall fuel extra ep tr t st,
  max_steps cfg - t <= fuel ->
  while_loop' (fuel + extra) ep tr t st = while_loop' fuel ep tr t st.
Proof.
  induction fuel as [|fuel IH]; intros extra ep tr t st Hf.
  - rewrite !while_loop_exit by lia. reflexivity.
  - simpl. destruct (Nat.ltb_spec t (max_steps cfg)) as [Hlt|]; [|reflexivity].
    destruct (train_step' ep tr t st) as [[[tr1 t1] st1]|e] eqn:E; simpl;
      [|reflexivity].
    apply IH. apply train_step_log in E. destruct E as (_ & Hd & Hn).
    destruct (done_reported' st).
    + destruct (Hd eq_refl) as (-> & _). lia.
    + destruct (Hn eq_refl) as (-> & _). lia.
Qed.

Lemma while_loop_log : forall fuel ep tr t st tr' st',
  while_loop' fuel ep tr t st = Ok (tr', st') ->
  rewards_list st' = rewards_list st
  \/ rewards_list st' = rewards_list st ++ [(ep, tr')].
Proof.
  induction fuel as [|fuel IH]; intros ep tr t st tr' st' H; simpl in H.
  - inversion H; subst. now left.
  - destruct (t <? max_steps cfg); [|inversion H; subst; now left].
    destruct (train_step' ep tr t st) as [[[tr1 t1] st1]|e] eqn:E; simpl in H;
      [|discriminate].
    apply train_step_log in E. destruct E as (_ & Hd & Hn).
    destruct (done_reported' st).
    + destruct (Hd eq_refl) as (-> & Hrl & _).
      rewrite while_loop_exit in H by lia. inversion H; subst. now right.
    + destruct (Hn eq_refl) as (_ & Hrl & _).
      apply IH in H. rewrite Hrl in H. exact H.
Qed.

(** C7. Whenever the simulator reports [done], the transition appended to
    the memory has the zero vector of the state's dimension as its
    [next_state], whatever next state the simulator returned: in the
    pre-population loop and in the training loop alike. *)
Theorem terminal_sentinel :
  (forall s,
      snd (pretrain_response' s) = true ->
      memory (pretrain_step' s)
      = Memory.add (memory s)
          (state s, pretrain_action' s, snd (fst (pretrain_response' s)),
           np_zeros (length (state s))))
  /\ (forall ep tr t st tr' t' st',
        done_reported' st = true ->
        train_step' ep tr t st = Ok (tr', t', st') ->
        memory (sim st')
        = Memory.add (memory (sim st))
            (state (sim st), chosen_action' st, reward_received' st,
             np_zeros (length (state (sim st)))))
  /\ (forall k, length (np_zeros k) = k
                /\ Forall (fun x => x = 0%R) (np_zeros k)).
Proof.
  split; [|split].
  - intros s Hd. rewrite pretrain_step_memory, Hd. reflexivity.
  - intros ep tr t st tr' t' st' Hd H.
    apply train_step_log in H. destruct H as (_ & H & _).
    now destruct (H Hd) as (_ & _ & _ & Hm).
  - intros k. unfold np_zeros. split; [apply repeat_length|].
    apply Forall_forall. intros x Hx. now apply repeat_spec in Hx.
Qed.

Lemma while_loop_log_exact : forall fuel ep tr t st tr' st',
  while_loop' fuel ep tr t st = Ok (tr', st') ->
  rewards_list st'
  = rewards_list st
    ++ (if done_in_loop' fuel ep tr t st then [(ep, tr')] else []).
Proof.
  induction fuel as [|fuel IH]; intros ep tr t st tr' st' H; simpl in H |- *.
  - inversion H; subst. now rewrite app_nil_r.
  - destruct (t <? max_steps cfg);
      [|inversion H; subst; now rewrite app_nil_r].
    destruct (train_step' ep tr t st) as [[[tr1 t1] st1]|e] eqn:E; simpl in H;
      [|discriminate].
    apply train_step_log in E. destruct E as (_ & Hd & Hn).
    destruct (done_reported' st).
    + destruct (Hd eq_refl) as (-> & Hrl & _).
      rewrite while_loop_exit in H by lia. inversion H; subst. exact Hrl.
    + destruct (Hn eq_refl) as (_ & Hrl & _).
      apply IH in H. rewrite Hrl in H. exact H.
Qed.

Lemma while_loop_cut_off : forall fuel ep tr t st tr' st',
  while_loop' fuel ep tr t st = Ok (tr', st') ->
  done_in_loop' fuel ep tr t st = false ->
  max_steps cfg - t <= fuel ->
  step st' = step st + (max_steps cfg - t).
Proof.
  induction fuel as [|fuel IH]; intros ep tr t st tr' st' H Hd Hf;
    simpl in H, Hd.
  - inversion H; subst. lia.
  - destruct (Nat.ltb_spec t (max_steps cfg)) as [Hlt|Hge];
      [|inversion H; subst; lia].
    destruct (train_step' ep tr t st) as [[[tr1 t1] st1]|e] eqn:E; simpl in H;
      [|discriminate].
    pose proof E as E'. apply train_step_inv in E'.
    destruct E' as (s' & rl & out & g & n' & l' & _ & _ & Hst).
    apply train_step_log in E. destruct E as (_ & _ & Hn).
    destruct (done_reported' st); [discriminate|].
    destruct (Hn eq_refl) as (-> & _).
    rewrite (IH _ _ _ _ _ _ H Hd) by lia. subst st1. simpl. lia.
Qed.

(** C6, as the code has it.  A step at which the simulator reports [done]
    ends the episode ([t] becomes [max_steps]) and appends
    [(episode, total_reward)] to the log; a step at which it does not leaves
    the log alone and only counts [t] up.  So an episode logs its pair,
    once, exactly when it meets a step with [done]; an episode that ends
    only because [t] reached [max_steps] has run [max_steps] steps and
    logged nothing. *)
Theorem episode_log_on_done :
  (forall ep tr t st tr' t' st',
      train_step' ep tr t st = Ok (tr', t', st') ->
      tr' = (tr + reward_received' st)%R
      /\ (done_reported' st = true ->
            t' = max_steps cfg
            /\ rewards_list st' = rewards_list st ++ [(ep, tr')])
      /\ (done_reported' st = false ->
            t' = t + 1 /\ rewards_list st' = rewards_list st))
  /\ (forall ep st tr' st',
        run_episode' ep st = Ok (tr', st') ->
        rewards_list st' = rewards_list st
        \/ rewards_list st' = rewards_list st ++ [(ep, tr')])
  /\ (forall ep st tr' st',
        run_episode' ep st = Ok (tr', st') ->
        rewards_list st'
        = rewards_list st
          ++ (if episode_ends_by_done cfg env_reset env_step
                   action_space_sample np_random_rand np_random_permutation
                   predict optimize ep st
              then [(ep, tr')] else []))
  /\ (forall ep st tr' st',
        run_episode' ep st = Ok (tr', st') ->
        episode_ends_by_done cfg env_reset env_step action_space_sample
          np_random_rand np_random_permutation predict optimize ep st = false ->
        step st' = step st + max_steps cfg
        /\ rewards_list st' = rewards_list st).
Proof.
  split; [|split; [|split]].
  - intros ep tr t st tr' t' st' H.
    apply train_step_log in H. destruct H as (Htr & Hd & Hn).
    split; [exact Htr|]. split; intros E.
    + destruct (Hd E) as (? & ? & _). now split.
    + destruct (Hn E) as (? & ? & _). now split.
  - intros ep st tr' st' H. now apply while_loop_log in H.
  - intros ep st tr' st' H. now apply while_loop_log_exact in H.
  - intros ep st tr' st' H Hd. unfold run_episode in H.
    unfold episode_ends_by_done in Hd. split.
    + rewrite (while_loop_cut_off _ _ _ _ _ _ _ H Hd) by lia. lia.
    + apply while_loop_log_exact in H. rewrite Hd, app_nil_r in H. exact H.
Qed.

(** *** The memory is populated before every mini-batch *)

Lemma pretrain_step_maxlen : forall s,
  Memory.maxlen (memory (pretrain_step' s)) = Memory.maxlen (memory s).
Proof. intros s. rewrite pretrain_step_memory. reflexivity. Qed.

Lemma pretrain_iter_length : forall k s j,
  length (Memory.buffer (memory s)) = Nat.min (Memory.maxlen (memory s)) j ->
  Memory.maxlen (memory (Nat.iter k pretrain_step' s)) = Memory.maxlen (memory s)
  /\ length (Memory.buffer (memory (Nat.iter k pretrain_step' s)))
     = Nat.min (Memory.maxlen (memory s)) (j + k).
Proof.
  induction k as [|k IH]; intros s j Hj.
  - simpl. rewrite Nat.add_0_r. auto.
  - rewrite Nat.iter_succ. destruct (IH s j Hj) as [Hm Hl].
    rewrite pretrain_step_maxlen. split; [exact Hm|].
    rewrite pretrain_step_memory.
    rewrite <- Hm in Hl. rewrite (length_add_min _ _ _ Hl), Hm.
    f_equal. lia.
Qed.

Lemma populate_memory : forall e0 g0,
  Memory.maxlen (memory (populate' e0 g0)) = memory_size cfg
  /\ length (Memory.buffer (memory (populate' e0 g0)))
     = Nat.min (memory_size cfg) (pretrain_length cfg).
Proof.
  intros e0 g0. unfold populate.
  destruct (start_new_episode' e0 g0) as [[e g] s].
  apply (pretrain_iter_length (pretrain_length cfg)
           {| env := e; rng := g; state := s;
              memory := Memory.init (memory_size cfg) |} 0).
  simpl. lia.
Qed.

Lemma mapM_getitem_exn : forall (T : Type) (d : list T) idx e,
  mapM (Memory.getitem d) idx = Raise e -> e = IndexError.
Proof.
  intros T d. induction idx as [|i idx IH]; intros e H; simpl in H;
    [discriminate|].
  unfold Memory.getitem at 1 in H.
  destruct (nth_error d i); simpl in H; [|congruence].
  destruct (mapM (Memory.getitem d) idx) as [bs|e'] eqn:E; simpl in H;
    [discriminate|].
  inversion H; subst. now apply IH.
Qed.

Lemma learn_exn : forall s n e,
  populated' s -> learn' s n = Raise e ->
  e <> ValueError larger_sample_than_population.
Proof.
  intros s n e [_ Hlen] H. unfold learn, Memory.sample, np_random_choice in H.
  destruct (np_random_permutation (rng s) (length (Memory.buffer (memory s))))
    as [g perm].
  destruct (Nat.ltb_spec (length (Memory.buffer (memory s))) (batch_size cfg));
    [lia|].
  simpl in H.
  destruct (mapM (Memory.getitem (Memory.buffer (memory s)))
              (firstn (batch_size cfg) perm)) as [batch|e'] eqn:E; simpl in H.
  - unfold train_on_batch in H.
    destruct batch as [|b batch]; simpl in H.
    + inversion H; subst; discriminate.
    + destruct (optimize n _ _ _); discriminate H.
  - inversion H; subst. apply mapM_getitem_exn in E. subst. discriminate.
Qed.

Lemma interact_exn : forall ep tr t st e,
  interact' ep tr t st = Raise e -> e = NameError.
Proof.
  intros ep tr t st e H. rewrite interact_spec in H. simpl in H.
  destruct (done_reported' st); [|discriminate].
  destruct (loss st); [discriminate | congruence].
Qed.

Lemma interact_populated : forall ep tr t st tr' t' s' rl out,
  populated' (sim st) ->
  interact' ep tr t st = Ok (tr', t', s', rl, out) ->
  populated' s'.
Proof.
  intros ep tr t st tr' t' s' rl out [Hc Hl] H.
  rewrite interact_spec in H. simpl in H.
  destruct (done_reported' st).
  - destruct (loss st); [|discriminate]. inversion H; subst.
    split; simpl; [exact Hc | now apply length_add_ge].
  - inversion H; subst.
    split; simpl; [exact Hc | now apply length_add_ge].
Qed.

Lemma train_step_safe : forall ep tr t st,
  populated' (sim st) ->
  train_step' ep tr t st <> Raise (ValueError larger_sample_than_population)
  /\ (forall tr' t' st',
        train_step' ep tr t st = Ok (tr', t', st') -> populated' (sim st')).
Proof.
  intros ep tr t st Hp. split.
  - unfold train_step.
    destruct (interact' ep tr t st) as [[[[[tr1 t1] s'] rl] out]|e] eqn:Ei;
      simpl.
    + pose proof (interact_populated _ _ _ _ _ _ _ _ _ Hp Ei) as Hp'.
      destruct (learn' s' (net st)) as [[[g n'] l']|e] eqn:El; simpl;
        [discriminate|].
      intros E. inversion E; subst. now apply (learn_exn _ _ _ Hp' El).
    + apply interact_exn in Ei. subst. discriminate.
  - intros tr' t' st' H. apply train_step_inv in H.
    destruct H as (s' & rl & out & g & n' & l' & Hi & _ & ->).
    apply (interact_populated _ _ _ _ _ _ _ _ _ Hp) in Hi. exact Hi.
Qed.

Lemma while_loop_safe : forall fuel ep tr t st,
  populated' (sim st) ->
  while_loop' fuel ep tr t st <> Raise (ValueError larger_sample_than_population)
  /\ (forall tr' st',
        while_loop' fuel ep tr t st = Ok (tr', st') -> populated' (sim st')).
Proof.
  induction fuel as [|fuel IH]; intros ep tr t st Hp; simpl.
  - split; [discriminate|]. intros tr' st' H. inversion H; subst. exact Hp.
  - destruct (t <? max_steps cfg).
    + destruct (train_step_safe ep tr t st Hp) as [Hne Hok].
      destruct (train_step' ep tr t st) as [[[tr1 t1] st1]|e] eqn:E; simpl.
      * apply IH. now apply (Hok tr1 t1 st1).
      * split; [|discriminate]. intros E'. inversion E'; subst. now apply Hne.
    + split; [discriminate|]. intros tr' st' H. inversion H; subst. exact Hp.
Qed.

Lemma for_episodes_safe : forall eps st,
  populated' (sim st) ->
  for_episodes' eps st <> Raise (ValueError larger_sample_than_population).
Proof.
  induction eps as [|ep eps IH]; intros st Hp; simpl; [discriminate|].
  unfold run_episode.
  destruct (while_loop_safe (max_steps cfg) ep 0%R 0 st Hp) as [Hne Hok].
  destruct (while_loop' (max_steps cfg) ep 0 0 st) as [[tr1 st1]|e] eqn:E;
    simpl.
  - apply IH. now apply (Hok tr1 st1).
  - intros E'. inversion E'; subst. now apply Hne.
Qed.

(** C8. With [pretrain_length = batch_size] (and a memory that can hold a
    mini-batch), the pre-population cell leaves [batch_size] transitions in
    the memory; every training step keeps at least that many, so each
    [memory.sample(batch_size)] finds enough of them and the notebook never
    raises the insufficient-population error. *)
Theorem sample_population_sufficient :
  pretrain_length cfg = batch_size cfg ->
  batch_size cfg <= memory_size cfg ->
  (forall e0 g0,
      populated' (populate' e0 g0)
      /\ length (Memory.buffer (memory (populate' e0 g0))) = batch_size cfg)
  /\ (forall ep tr t st tr' t' s' rl out,
        populated' (sim st) ->
        interact' ep tr t st = Ok (tr', t', s', rl, out) ->
        batch_size cfg <= length (Memory.buffer (memory s'))
        /\ learn' s' (net st)
           <> Raise (ValueError larger_sample_than_population))
  /\ (forall ep tr t st tr' t' st',
        populated' (sim st) ->
        train_step' ep tr t st = Ok (tr', t', st') ->
        populated' (sim st'))
  /\ (forall e0 g0 n0,
        notebook' e0 g0 n0
        <> Raise (ValueError larger_sample_than_population)).
Proof.
  intros Hpre Hcap.
  assert (Hpop : forall e0 g0,
             populated' (populate' e0 g0)
             /\ length (Memory.buffer (memory (populate' e0 g0)))
                = batch_size cfg).
  { intros e0 g0. destruct (populate_memory e0 g0) as [Hm Hl].
    unfold populated. rewrite Hm, Hl, Hpre. lia. }
  split; [exact Hpop|]. split; [|split].
  - intros ep tr t st tr' t' s' rl out Hp Hi.
    pose proof (interact_populated _ _ _ _ _ _ _ _ _ Hp Hi) as Hp'.
    split; [apply Hp'|].
    intros E. now apply (learn_exn _ _ _ Hp' E).
  - intros ep tr t st tr' t' st' Hp H.
    now apply (proj2 (train_step_safe ep tr t st Hp) tr' t' st').
  - intros e0 g0 n0. unfold notebook, train.
    apply for_episodes_safe. simpl. apply Hpop.
Qed.

(** *** The training loss at the end of an episode *)

Lemma py_range_1 : forall M, 2 <= M -> py_range 1 M = 1 :: py_range 2 M.
Proof.
  intros M H. unfold py_range.
  replace (M - 1) with (S (M - 2)) by lia. reflexivity.
Qed.


(** *** The episodes the training cell runs *)

Lemma for_episodes_log : forall eps st st',
  for_episodes' eps st = Ok st' ->
  forall ep total,
    In (ep, total) (rewards_list st') ->
    In (ep, total) (rewards_list st) \/ In ep eps.
Proof.
  induction eps as [|e eps IH]; intros st st' H ep total Hin; simpl in H.
  - inversion H; subst. now left.
  - destruct (run_episode' e st) as [[tr1 st1]|x] eqn:E; simpl in H;
      [|discriminate].
    destruct (IH _ _ H ep total Hin) as [Hin1|Hin1]; [|right; now right].
    apply while_loop_log in E. destruct E as [E|E]; rewrite E in Hin1.
    + now left.
    + apply in_app_or in Hin1. destruct Hin1 as [Hin1|[Hin1|[]]]; [now left|].
      inversion Hin1; subst. right. now left.
Qed.

(** C5, on the code.  [for ep in range(1, train_episodes)] runs the episodes
    [1 .. train_episodes - 1]: one fewer than [train_episodes], and never the
    episode of index [train_episodes]; every logged episode index is below
    [train_episodes]. *)
Theorem training_episode_indices :
  py_range 1 (train_episodes cfg) = seq 1 (train_episodes cfg - 1)
  /\ length (py_range 1 (train_episodes cfg)) = train_episodes cfg - 1
  /\ ~ In (train_episodes cfg) (py_range 1 (train_episodes cfg))
  /\ (forall s n0,
        train' s n0
        = for_episodes' (seq 1 (train_episodes cfg - 1)) (fresh s n0))
  /\ (forall s n0 st' ep total,
        train' s n0 = Ok st' ->
        In (ep, total) (rewards_list st') ->
        1 <= ep < train_episodes cfg).
Proof.
  split; [reflexivity|]. split; [apply length_seq|]. split; [|split].
  - unfold py_range. rewrite in_seq. lia.
  - reflexivity.
  - intros s n0 st' ep total H Hin. unfold train in H.
    destruct (for_episodes_log _ _ _ H _ _ Hin) as [[]|Hep].
    unfold py_range in Hep. apply in_seq in Hep. lia.
Qed.

End LoopFacts.

(** ** Runs on the concrete collaborators *)

Lemma demo_select_action : forall st : Train Demo.Env Demo.Rng Demo.Net,
  select_action Demo.small Demo.action_space_sample Demo.np_random_rand
    Demo.predict st = (rng (sim st), 0).
Proof.
  intros st. unfold select_action. simpl.
  destruct (Rgt_dec (explore_p Demo.small (S (step st))) 0) as [_|Hn];
    [reflexivity|].
  exfalso. apply Hn.
  assert (H1 : (0 <= decay_rate Demo.small)%R) by (simpl; lra).
  assert (H2 : (explore_stop Demo.small <= explore_start Demo.small)%R)
    by (simpl; lra).
  pose proof (explore_p_bounds Demo.small (S (step st)) H1 H2) as Hb.
  simpl in Hb. lra.
Qed.

#[local] Opaque select_action explore_p.

(** One step of the training loop on the concrete collaborators. *)
Ltac demo_step :=
  unfold train_step, interact; rewrite demo_select_action; cbn.

(** An episode of two steps in which the simulator never reports [done]. *)
Lemma demo_episode_cut_off :
  Demo.run_episode 1 (Demo.train0 [] None)
  = Ok ((0 + 1 + 1)%R,
        {| sim := {| env := []; rng := tt; state := [0; 0; 0; 0]%R;
                     memory := Memory.mk 3
                       [(Demo.s0, 0, 1%R, [0; 0; 0; 0]%R);
                        ([0; 0; 0; 0]%R, 0, 1%R, [0; 0; 0; 0]%R)] |};
           net := tt; step := 2; loss := Some 0%R;
           rewards_list := []; stdout := [] |}).
Proof.
  unfold Demo.run_episode, run_episode. cbn.
  demo_step. demo_step. reflexivity.
Qed.

(** C6 as stated fails: an episode that ends because [t] reached
    [max_steps], the simulator never reporting [done], leaves the episode
    log empty. *)
Lemma episode_cut_off_counterexample :
  exists total st',
    Demo.run_episode 1 (Demo.train0 [] None) = Ok (total, st')
    /\ step st' = max_steps Demo.small
    /\ rewards_list st' = []
    /\ ~ In (1, total) (rewards_list st').
Proof.
  eexists. eexists. split; [exact demo_episode_cut_off|].
  simpl. repeat split. intros [].
Qed.

(** A step at which the simulator reports [done]. *)
Lemma demo_step_done :
  Demo.train_step 1 1%R 1 (Demo.train0 [(Demo.s1, 1%R, true)] (Some 5%R))
  = Ok ((1 + 1)%R, 2,
        {| sim := {| env := []; rng := tt; state := [0; 0; 0; 0]%R;
                     memory := Memory.mk 3
                       [(Demo.s0, 0, 1%R, [0; 0; 0; 0]%R)] |};
           net := tt; step := 1; loss := Some 0%R;
           rewards_list := [(1, (1 + 1)%R)];
           stdout := [(1, (1 + 1)%R, 5%R, explore_p Demo.small 1)] |}).
Proof.
  unfold Demo.train_step. demo_step. reflexivity.
Qed.

Lemma episode_log_on_done_witness :
  done_reported Demo.small Demo.env_step Demo.action_space_sample
    Demo.np_random_rand Demo.predict
    (Demo.train0 [(Demo.s1, 1%R, true)] (Some 5%R)) = true
  /\ exists total t' st',
       Demo.train_step 1 1%R 1
         (Demo.train0 [(Demo.s1, 1%R, true)] (Some 5%R))
       = Ok (total, t', st')
       /\ t' = max_steps Demo.small
       /\ rewards_list st' = [(1, total)].
Proof.
  split; [reflexivity|].
  do 3 eexists. split; [exact demo_step_done|].
  exact (proj1 (proj2 (proj1
           (episode_log_on_done Demo.small Demo.Env Demo.env_reset
              Demo.env_step Demo.Rng Demo.action_space_sample
              Demo.np_random_rand Demo.np_random_permutation Demo.Net
              Demo.predict Demo.optimize)
           _ _ _ _ _ _ _ demo_step_done)) eq_refl).
Defined.

(** The simulator answers [s1] and [done]; the stored next state is the zero
    vector all the same. *)
Lemma terminal_sentinel_witness :
  snd (pretrain_response Demo.env_step Demo.action_space_sample
         (Demo.sim0 [(Demo.s1, 1%R, true)])) = true
  /\ Memory.buffer
       (memory (Demo.pretrain_step (Demo.sim0 [(Demo.s1, 1%R, true)])))
     = [(Demo.s0, 0, 1%R, [0; 0; 0; 0]%R)].
Proof.
  split; [reflexivity|].
  unfold Demo.pretrain_step.
  rewrite (proj1 (terminal_sentinel Demo.small Demo.Env Demo.env_reset
                    Demo.env_step Demo.Rng Demo.action_space_sample
                    Demo.np_random_rand Demo.np_random_permutation Demo.Net
                    Demo.predict Demo.optimize)
             (Demo.sim0 [(Demo.s1, 1%R, true)]) eq_refl).
  reflexivity.
Defined.

Lemma nat_20_le_10000 : 20 <= 10000.
Proof. apply Nat.leb_le. reflexivity. Qed.

(** The notebook's own hyperparameters meet the conditions of C8. *)
Lemma sample_population_sufficient_witness :
  pretrain_length hyperparameters = batch_size hyperparameters
  /\ batch_size hyperparameters <= memory_size hyperparameters
  /\ forall e0 : Demo.Env,
       notebook hyperparameters Demo.env_reset Demo.env_step
         Demo.action_space_sample Demo.np_random_rand
         Demo.np_random_permutation Demo.predict Demo.optimize e0 tt tt
       <> Raise (ValueError larger_sample_than_population).
Proof.
  split; [reflexivity|]. split; [exact nat_20_le_10000|].
  intros e0.
  exact (proj2 (proj2 (proj2
           (sample_population_sufficient hyperparameters Demo.Env
              Demo.env_reset Demo.env_step Demo.Rng Demo.action_space_sample
              Demo.np_random_rand Demo.np_random_permutation Demo.Net
              Demo.predict Demo.optimize eq_refl nat_20_le_10000)))
           e0 tt tt).
Defined.


(** With [train_episodes = 3] and both episodes ending by [done], the log
    holds the episodes 1 and 2 only. *)
Lemma demo_three_episodes_configured :
  exists st',
    Demo.train
      (Demo.sim0 [(Demo.s1, 1%R, false); (Demo.s1, 1%R, true);
                  (Demo.s0, 1%R, false);
                  (Demo.s1, 1%R, false); (Demo.s1, 1%R, true)]) tt
    = Ok st'
    /\ train_episodes Demo.small = 3
    /\ map fst (rewards_list st') = [1; 2].
Proof.
  eexists. split.
  - unfold Demo.train, train, fresh, py_range. cbn.
    unfold run_episode. cbn.
    demo_step. demo_step.
    unfold run_episode. cbn.
    demo_step. demo_step. reflexivity.
  - split; reflexivity.
Qed.

(** The notebook's own [train_episodes = 1000] gives 999 passes. *)
Lemma notebook_episode_count :
  length (py_range 1 (train_episodes hyperparameters)) = 999
  /\ ~ In 1000 (py_range 1 (train_episodes hyperparameters)).
Proof.
  split.
  - unfold py_range. rewrite length_seq. reflexivity.
  - unfold py_range. rewrite in_seq. simpl train_episodes. intros [_ H].
    apply Nat.ltb_lt in H. revert H. vm_compute. discriminate.
Qed.

(** * Further properties of the notebook *)

Unset Implicit Arguments.
#[local] Transparent select_action explore_p.

(** ** [running_mean] *)

Lemma length_cumsum_from : forall l acc, length (cumsum_from acc l) = length l.
Proof.
  induction l as [|a l IH]; intros acc; simpl; [reflexivity|].
  now rewrite IH.
Qed.

Lemma nth_cumsum_from : forall l acc k,
  k < length l ->
  nth k (cumsum_from acc l) 0%R
  = (acc + fold_right Rplus 0 (firstn (S k) l))%R.
Proof.
  induction l as [|a l IH]; intros acc k Hk; simpl in Hk; [lia|].
  destruct k as [|k].
  - simpl. lra.
  - change (nth (S k) (cumsum_from acc (a :: l)) 0%R)
      with (nth k (cumsum_from (acc + a) l) 0%R).
    rewrite IH by lia.
    change (firstn (S (S k)) (a :: l)) with (a :: firstn (S k) l).
    cbn [fold_right]. lra.
Qed.

Lemma nth_np_cumsum : forall x k,
  k <= length x ->
  nth k (np_cumsum (0%R :: x)) 0%R = fold_right Rplus 0%R (firstn k x).
Proof.
  intros x k Hk. unfold np_cumsum.
  destruct k as [|k].
  - simpl. lra.
  - change (nth (S k) (cumsum_from 0 (0%R :: x)) 0%R)
      with (nth k (cumsum_from (0 + 0) x) 0%R).
    rewrite nth_cumsum_from by lia. lra.
Qed.

Lemma sum_app : forall a b : list R,
  fold_right Rplus 0%R (a ++ b)
  = (fold_right Rplus 0 a + fold_right Rplus 0 b)%R.
Proof.
  induction a as [|x a IH]; intros b; simpl; [lra|]. rewrite IH. lra.
Qed.

Lemma window_sum_diff : forall x i N,
  (fold_right Rplus 0 (firstn (N + i) x) - fold_right Rplus 0 (firstn i x))%R
  = window_sum x i N.
Proof.
  intros x i N. unfold window_sum.
  rewrite firstn_skipn_comm.
  replace (N + i) with (i + N) by lia.
  assert (E : firstn i x = firstn i (firstn (i + N) x)).
  { rewrite firstn_firstn. f_equal. lia. }
  rewrite E. set (y := firstn (i + N) x).
  rewrite <- (firstn_skipn i y) at 1. rewrite sum_app. lra.
Qed.

(** In exact arithmetic and for a window of at least one entry,
    [running_mean] is the list of the means of all the windows of [x], in
    order. *)
Lemma running_mean_closed : forall x N,
  1 <= N ->
  running_mean x N
  = Some (map (fun i => (window_sum x i N / INR N)%R)
              (seq 0 (length x + 1 - N))).
Proof.
  intros x N HN. unfold running_mean, np_subtract, slice_from, slice_until_minus.
  set (c := np_cumsum (0%R :: x)).
  assert (Hc : length c = length x + 1).
  { unfold c, np_cumsum. simpl. rewrite length_cumsum_from. lia. }
  destruct (Nat.eqb_spec N 0) as [|_]; [lia|].
  rewrite length_skipn, length_firstn, Hc.
  replace (Nat.min (length x + 1 - N) (length x + 1)) with (length x + 1 - N)
    by lia.
  rewrite Nat.eqb_refl. simpl option_map. f_equal.
  apply nth_ext with (d := 0%R) (d' := 0%R).
  - rewrite !length_map, length_combine, length_skipn, length_firstn, Hc,
      length_seq. lia.
  - intros i Hi.
    rewrite !length_map, length_combine, length_skipn, length_firstn, Hc in Hi.
    assert (Hi' : i < length x + 1 - N) by lia.
    rewrite (nth_indep _ 0%R
               ((fun d => d / INR N) ((fun p => fst p - snd p) (0, 0)))%R).
    2:{ rewrite !length_map, length_combine, length_skipn, length_firstn, Hc.
        lia. }
    rewrite (map_nth (fun d => (d / INR N)%R)).
    rewrite (map_nth (fun p : R * R => (fst p - snd p)%R)).
    rewrite combine_nth
      by (rewrite length_skipn, length_firstn, Hc; lia).
    simpl fst. simpl snd.
    rewrite nth_skipn, nth_firstn.
    destruct (Nat.ltb_spec i (length x + 1 - N)); [|lia].
    unfold c. rewrite !nth_np_cumsum by lia.
    rewrite window_sum_diff.
    rewrite (nth_indep _ 0%R
               ((fun i => window_sum x i N / INR N)%R 0))
      by (rewrite length_map, length_seq; lia).
    rewrite (map_nth (fun i => (window_sum x i N / INR N)%R)).
    rewrite seq_nth by lia. reflexivity.
Qed.

(** X1. With a window [N >= 1], [running_mean(x, N)] never fails and
    returns [len(x) + 1 - N] values: one per window of [N] consecutive
    entries of [x], and none when the window is longer than [x]. *)
Theorem running_mean_window :
  forall (x : list R) (N : nat),
    1 <= N ->
    exists out,
      running_mean x N = Some out
      /\ length out = length x + 1 - N
      /\ (length x < N -> out = []).
Proof.
  intros x N HN. eexists. split; [now apply running_mean_closed|].
  rewrite length_map, length_seq. split; [reflexivity|].
  intros Hlt. replace (length x + 1 - N) with 0 by lia. reflexivity.
Qed.

Lemma running_mean_window_witness :
  1 <= 2
  /\ exists out, running_mean [1; 3; 5]%R 2 = Some out /\ length out = 2.
Proof.
  split; [lia|].
  destruct (@running_mean_window [1; 3; 5]%R 2 (le_S 1 1 (le_n 1)))
    as (out & H & Hl & _).
  exists out. split; [exact H | exact Hl].
Defined.

(** X2. A window of zero entries makes [running_mean] fail on any non-empty
    [x] (the two slices have lengths [len(x) + 1] and [0], which do not
    broadcast), while on an empty [x] it returns the empty array. *)
Theorem running_mean_zero_window :
  (forall x : list R, x <> [] -> running_mean x 0 = None)
  /\ running_mean [] 0 = Some [].
Proof.
  split.
  - intros x Hx. unfold running_mean, np_subtract, slice_from, slice_until_minus.
    simpl. rewrite length_cumsum_from.
    destruct x as [|a x]; [congruence|]. reflexivity.
  - reflexivity.
Qed.

(** X3. The smoothed curve of the plotting cell.  With at least ten logged
    episodes the two arguments of [plt.plot] have the same length,
    [n - 9], and the first is the episode numbers from the tenth entry of
    the log on.  With one to nine logged episodes the smoothed rewards are
    empty while [eps[-0:]] is the whole of [eps], so the two arguments have
    different lengths.  With an empty log the unpacking fails. *)
Theorem smoothed_plot_axes :
  forall rewards_list : list (nat * R),
    (10 <= length rewards_list ->
       exists smoothed_rews,
         smoothed_plot rewards_list
         = Some (skipn 9 (map fst rewards_list), smoothed_rews)
         /\ length smoothed_rews = length rewards_list - 9
         /\ length (skipn 9 (map fst rewards_list)) = length smoothed_rews)
    /\ (1 <= length rewards_list < 10 ->
          smoothed_plot rewards_list = Some (map fst rewards_list, [])
          /\ length (map fst rewards_list) <> length (@nil R))
    /\ (rewards_list = [] -> smoothed_plot rewards_list = None).
Proof.
  intros rl.
  assert (H10 : 1 <= 10) by lia.
  pose proof (running_mean_closed (map snd rl) 10 H10) as Hrm.
  rewrite length_map in Hrm.
  split; [|split].
  - intros Hn. destruct rl as [|p rl]; [simpl in Hn; lia|].
    unfold smoothed_plot. rewrite Hrm. eexists. split.
    + f_equal. f_equal. unfold slice_last.
      rewrite length_map, length_seq, length_map.
      destruct (Nat.eqb_spec (length (p :: rl) + 1 - 10) 0) as [E|_]; [lia|].
      f_equal. lia.
    + rewrite length_map, length_seq, length_skipn, length_map. lia.
  - intros Hn. destruct rl as [|p rl]; [simpl in Hn; lia|].
    unfold smoothed_plot. rewrite Hrm.
    replace (length (p :: rl) + 1 - 10) with 0 by lia.
    split; [reflexivity|]. simpl. lia.
  - intros ->. reflexivity.
Qed.

Lemma smoothed_plot_axes_witness :
  1 <= length [(1, 5%R); (2, 7%R)] < 10
  /\ smoothed_plot [(1, 5%R); (2, 7%R)] = Some ([1; 2], []).
Proof.
  assert (H : 1 <= length [(1, 5%R); (2, 7%R)] < 10) by (simpl; lia).
  split; [exact H|].
  exact (proj1 (proj1 (proj2 (smoothed_plot_axes [(1, 5%R); (2, 7%R)])) H)).
Defined.

(** ** The loss of the Q-network *)

Lemma one_hot_row_sum : forall (row : list R) (s a : nat),
  QNetwork.tf_reduce_sum
    (QNetwork.tf_multiply row
       (map (fun i => if i =? a then 1%R else 0%R) (seq s (length row))))
  = if a <? s then 0%R else nth (a - s) row 0%R.
Proof.
  unfold QNetwork.tf_reduce_sum, QNetwork.tf_multiply.
  induction row as [|r row IH]; intros s a.
  - simpl. destruct (a <? s), (a - s); reflexivity.
  - cbn [length seq map combine fold_right fst snd].
    rewrite IH.
    destruct (Nat.eqb_spec s a) as [->|Hne].
    + destruct (Nat.ltb_spec a (S a)); [|lia].
      destruct (Nat.ltb_spec a a); [lia|].
      rewrite Nat.sub_diag. simpl. lra.
    + destruct (Nat.ltb_spec a (S s)), (Nat.ltb_spec a s); try lia.
      * lra.
      * replace (a - s) with (S (a - S s)) by lia. simpl. lra.
Qed.

(** X4. [self.Q] picks, in every row of the batch, the output of the action
    taken: with rows of [action_size] outputs and as many actions as rows,
    the value for a row is [output[action]]; for an action outside
    [0 .. action_size - 1] the one-hot row is all zeros and the value is 0. *)
Theorem Q_selects_action :
  forall (action_size : nat) (output : list (list R)) (actions_ : list nat),
    length output = length actions_ ->
    Forall (fun row => length row = action_size) output ->
    QNetwork.Q action_size output actions_
    = map (fun p => nth (snd p) (fst p) 0%R) (combine output actions_)
    /\ length (QNetwork.Q action_size output actions_) = length actions_
    /\ (forall row, length row = action_size -> forall a, action_size <= a ->
          QNetwork.Q action_size [row] [a] = [0%R]).
Proof.
  intros action_size output actions_ Hlen Hrows.
  assert (Hrow : forall row a, length row = action_size ->
             QNetwork.tf_reduce_sum
               (QNetwork.tf_multiply row (QNetwork.tf_one_hot a action_size))
             = nth a row 0%R).
  { intros row a <-. unfold QNetwork.tf_one_hot. rewrite one_hot_row_sum.
    simpl. now rewrite Nat.sub_0_r. }
  split; [|split].
  - unfold QNetwork.Q. apply map_ext_in. intros [row a] Hin.
    apply in_combine_l in Hin. simpl.
    apply Hrow. rewrite Forall_forall in Hrows. now apply Hrows.
  - unfold QNetwork.Q. rewrite length_map, length_combine. lia.
  - intros row Hr a Ha. unfold QNetwork.Q. simpl. rewrite (Hrow row a Hr).
    now rewrite nth_overflow by lia.
Qed.

Lemma Q_selects_action_witness :
  length [[2; 3]; [5; 7]]%R = length [1; 0]
  /\ Forall (fun row : list R => length row = 2) [[2; 3]; [5; 7]]%R
  /\ QNetwork.Q 2 [[2; 3]; [5; 7]]%R [1; 0] = [3; 5]%R.
Proof.
  assert (H1 : length [[2; 3]; [5; 7]]%R = length [1; 0]) by reflexivity.
  assert (H2 : Forall (fun row : list R => length row = 2) [[2; 3]; [5; 7]]%R)
    by (repeat constructor).
  split; [exact H1|]. split; [exact H2|].
  exact (proj1 (@Q_selects_action 2 [[2; 3]; [5; 7]]%R [1; 0] H1 H2)).
Defined.

Lemma sum_sqr_nonneg : forall t q : list R,
  (0 <= fold_right Rplus 0
          (map (fun p => Rsqr (fst p - snd p)) (combine t q)))%R.
Proof.
  induction t as [|x t IH]; intros q; simpl; [lra|].
  destruct q as [|y q]; simpl; [lra|].
  pose proof (Rle_0_sqr (x - y)). specialize (IH q). lra.
Qed.

Lemma sum_sqr_zero : forall t q : list R,
  length t = length q ->
  (fold_right Rplus 0%R
     (map (fun p => Rsqr (fst p - snd p)) (combine t q)) = 0%R
   <-> t = q).
Proof.
  induction t as [|x t IH]; intros [|y q] Hlen; simpl in Hlen; try lia.
  - simpl. tauto.
  - simpl. pose proof (Rle_0_sqr (x - y)) as Hs.
    pose proof (sum_sqr_nonneg t q) as Hn.
    split.
    + intros H.
      assert (Hx : Rsqr (x - y) = 0%R) by lra.
      assert (Hr : fold_right Rplus 0%R
                     (map (fun p => Rsqr (fst p - snd p)) (combine t q)) = 0%R)
        by lra.
      apply Rsqr_eq_0 in Hx. apply IH in Hr; [|lia].
      f_equal; [lra | exact Hr].
    + intros E. inversion E; subst.
      rewrite (proj2 (IH q ltac:(lia)) eq_refl).
      unfold Rsqr. replace (y - y)%R with 0%R by lra. lra.
Qed.

(** X5. On a batch of at least one row, with one target per Q-value, the
    loss is never negative, and it is zero when every Q-value equals its
    target. *)
Theorem loss_nonneg_zero_on_target :
  forall targetQs_ Qs : list R,
    length targetQs_ = length Qs ->
    1 <= length Qs ->
    (0 <= QNetwork.loss targetQs_ Qs)%R
    /\ (targetQs_ = Qs -> QNetwork.loss targetQs_ Qs = 0%R).
Proof.
  intros t q Hlen Hne. unfold QNetwork.loss, QNetwork.tf_reduce_mean,
    QNetwork.tf_reduce_sum.
  rewrite length_map, length_combine, Hlen, Nat.min_id.
  assert (Hn : (0 < INR (length q))%R) by (apply lt_0_INR; lia).
  pose proof (sum_sqr_nonneg t q) as Hs.
  split.
  - apply Rmult_le_pos; [exact Hs|]. left. now apply Rinv_0_lt_compat.
  - intros E. rewrite (proj2 (sum_sqr_zero t q Hlen) E). unfold Rdiv. lra.
Qed.

Lemma loss_nonneg_zero_on_target_witness :
  length [1; 2]%R = length [1; 2]%R
  /\ 1 <= length [1; 2]%R
  /\ QNetwork.loss [1; 2]%R [1; 2]%R = 0%R.
Proof.
  assert (H1 : length [1; 2]%R = length [1; 2]%R) by reflexivity.
  assert (H2 : 1 <= length [1; 2]%R) by (simpl; lia).
  split; [exact H1|]. split; [exact H2|].
  exact (proj2 (@loss_nonneg_zero_on_target [1; 2]%R [1; 2]%R H1 H2)
           eq_refl).
Defined.

(** ** The cell that plays random actions *)

Section RandomPlayFacts.

Variable Env : Type.
Variable env_reset : Env -> Env.
Variable env_step : Env -> nat -> Env * (State * R * bool).
Variable Rng : Type.
Variable action_space_sample : Rng -> Rng * nat.

Local Abbreviation play_step' :=
  (play_step env_reset env_step action_space_sample).
Local Abbreviation play' := (play env_reset env_step action_space_sample).
Local Abbreviation random_play' :=
  (random_play env_reset env_step action_space_sample).

(** What the simulator answers to the random action drawn in state [w]. *)
Local Abbreviation answer w :=
  (snd (env_step (fst (fst w)) (snd (action_space_sample (snd (fst w)))))).

Lemma play_step_rewards : forall w : Env * Rng * list R,
  snd (play_step' w)
  = if snd (answer w) then [] else snd w ++ [snd (fst (answer w))].
Proof.
  intros [[e g] rewards]. unfold play_step. simpl.
  destruct (action_space_sample g) as [g1 a]. simpl.
  destruct (env_step e a) as [e1 [[s r] d]]. simpl.
  destruct d; reflexivity.
Qed.

Lemma Forall_skipn : forall (A : Type) (P : A -> Prop) k (l : list A),
  Forall P l -> Forall P (skipn k l).
Proof.
  intros A P k l H. rewrite Forall_forall in *. intros x Hx. apply H.
  rewrite <- (firstn_skipn k l). apply in_or_app. now right.
Qed.

(** X6. In the random-play cell [rewards] is emptied at every step that
    ends an episode and grows by the step's reward otherwise; so after [n]
    steps it holds at most [n] rewards, all of them rewards the simulator
    paid (each satisfies whatever every reward of the simulator satisfies),
    and the printed slice [rewards[-20:]] is its last entries, at most 20. *)
Theorem random_play_rewards :
  forall P : R -> Prop,
    (forall e a, P (snd (fst (snd (env_step e a))))) ->
    forall e g,
      (forall n,
          let w := play' n e g in
          snd (play' (S n) e g)
          = if snd (answer w) then [] else snd w ++ [snd (fst (answer w))])
      /\ (forall n, length (snd (play' n e g)) <= n
                    /\ Forall P (snd (play' n e g)))
      /\ length (random_play' e g) <= 20
      /\ Forall P (random_play' e g)
      /\ random_play' e g
         = skipn (length (snd (play' 100 e g)) - 20) (snd (play' 100 e g)).
Proof.
  intros P HP e g.
  assert (Hstep : forall n,
             snd (play' (S n) e g)
             = if snd (answer (play' n e g)) then []
               else snd (play' n e g) ++ [snd (fst (answer (play' n e g)))]).
  { intros n. unfold play. rewrite Nat.iter_succ. apply play_step_rewards. }
  assert (Hinv : forall n, length (snd (play' n e g)) <= n
                           /\ Forall P (snd (play' n e g))).
  { induction n as [|n [IHl IHf]].
    - unfold play. simpl. split; [lia | constructor].
    - rewrite Hstep. destruct (snd (answer (play' n e g))).
      + simpl. split; [lia | constructor].
      + rewrite length_app. simpl. split; [lia|].
        apply Forall_app. split; [exact IHf|].
        constructor; [apply HP | constructor]. }
  split; [exact Hstep|]. split; [exact Hinv|].
  unfold random_play, slice_last. simpl Nat.eqb. cbv iota.
  split; [rewrite length_skipn; lia|].
  split; [apply Forall_skipn, Hinv | reflexivity].
Qed.

End RandomPlayFacts.

Lemma random_play_rewards_witness :
  (forall (e : Ticking.Env) (a : nat),
      snd (fst (snd (Ticking.env_step e a))) = 1%R)
  /\ Forall (fun r => r = 1%R)
       (random_play Ticking.env_reset Ticking.env_step
          Demo.action_space_sample 0 tt).
Proof.
  assert (H : forall (e : Ticking.Env) (a : nat),
             snd (fst (snd (Ticking.env_step e a))) = 1%R)
    by (intros; reflexivity).
  split; [exact H|].
  exact (proj1 (proj2 (proj2 (proj2
           (random_play_rewards Ticking.Env Ticking.env_reset
              Ticking.env_step Demo.Rng Demo.action_space_sample
              (fun r => r = 1%R) H 0 tt))))).
Defined.

(** ** More on the replay memory *)

Lemma lastn_within : forall (T : Type) (C : nat) (l : list T),
  length l <= C -> lastn C l = l.
Proof.
  intros T C l H. unfold lastn. now replace (length l - C) with 0 by lia.
Qed.

(** X7. Adding to a memory that already holds entries (no more than its
    capacity): after the adds the buffer is the last [maxlen] entries of the
    old buffer followed by the added items, in order; its size is
    [min(maxlen, old size + number added)].  With [maxlen = 0] nothing is
    ever stored. *)
Theorem add_all_keeps_most_recent :
  forall (T : Type) (m : Memory.t T) (xs : list T),
    length (Memory.buffer m) <= Memory.maxlen m ->
    Memory.buffer (Memory.add_all m xs)
    = lastn (Memory.maxlen m) (Memory.buffer m ++ xs)
    /\ length (Memory.buffer (Memory.add_all m xs))
       = Nat.min (Memory.maxlen m) (length (Memory.buffer m) + length xs)
    /\ Memory.maxlen (Memory.add_all m xs) = Memory.maxlen m
    /\ (Memory.maxlen m = 0 -> Memory.buffer (Memory.add_all m xs) = []).
Proof.
  intros T [C b] xs H. simpl in *.
  assert (E : Memory.buffer (Memory.add_all (Memory.mk C b) xs)
              = lastn C (b ++ xs)).
  { rewrite <- (lastn_within T C b H) at 1. apply add_all_lastn. }
  split; [exact E|]. split; [|split].
  - rewrite E, length_lastn, length_app. reflexivity.
  - apply maxlen_add_all.
  - intros ->. rewrite E. unfold lastn. rewrite Nat.sub_0_r.
    apply skipn_all.
Qed.

Lemma add_all_keeps_most_recent_witness :
  length (Memory.buffer (Memory.mk 3 [1; 2])) <= Memory.maxlen (Memory.mk 3 [1; 2])
  /\ Memory.buffer (Memory.add_all (Memory.mk 3 [1; 2]) [3; 4]) = [2; 3; 4].
Proof.
  assert (H : length (Memory.buffer (Memory.mk 3 [1; 2]))
              <= Memory.maxlen (Memory.mk 3 [1; 2])) by (simpl; lia).
  split; [exact H|].
  exact (proj1 (add_all_keeps_most_recent nat (Memory.mk 3 [1; 2]) [3; 4] H)).
Defined.

(** X8. Sampling as many transitions as the memory holds returns a
    rearrangement of the whole buffer; sampling none returns the empty list,
    on an empty memory too. *)
Theorem sample_everything_or_nothing :
  forall (T : Type) (m : Memory.t T) (perm : list nat),
    Permutation perm (seq 0 (length (Memory.buffer m))) ->
    (exists out,
        Memory.sample m perm (length (Memory.buffer m)) = Ok out
        /\ Permutation out (Memory.buffer m))
    /\ Memory.sample m perm 0 = Ok [].
Proof.
  intros T m perm Hperm. split.
  - exists (gather (Memory.buffer m) perm).
    assert (Hlen : length perm = length (Memory.buffer m)).
    { rewrite (Permutation_length Hperm). apply length_seq. }
    unfold Memory.sample, np_random_choice. rewrite Nat.ltb_irrefl. simpl.
    rewrite <- Hlen, firstn_all. split.
    + apply mapM_getitem_gather. intros i Hi.
      apply (Permutation_in i Hperm), in_seq in Hi. lia.
    + now apply gather_permutation.
  - unfold Memory.sample, np_random_choice. simpl. reflexivity.
Qed.

Lemma sample_everything_or_nothing_witness :
  Permutation [1; 0] (seq 0 (length (Memory.buffer (Memory.mk 5 [7; 9]))))
  /\ Memory.sample (Memory.mk 5 [7; 9]) [1; 0] 0 = Ok [].
Proof.
  assert (H : Permutation [1; 0]
                (seq 0 (length (Memory.buffer (Memory.mk 5 [7; 9])))))
    by exact (perm_swap 0 1 []).
  split; [exact H|].
  exact (proj2 (sample_everything_or_nothing nat (Memory.mk 5 [7; 9]) [1; 0] H)).
Defined.

(** ** More on the training loop *)

Section TrainingFacts.

Variable cfg : Config.
Variable Env : Type.
Variable env_reset : Env -> Env.
Variable env_step : Env -> nat -> Env * (State * R * bool).
Variable Rng : Type.
Variable action_space_sample : Rng -> Rng * nat.
Variable np_random_rand : Rng -> Rng * R.
Variable np_random_permutation : Rng -> nat -> Rng * list nat.
Variable Net : Type.
Variable predict : Net -> State -> R * R.
Variable optimize : Net -> list State -> list R -> list nat -> Net * R.

Local Abbreviation Sim' := (Sim Env Rng).
Local Abbreviation Train' := (Train Env Rng Net).
Local Abbreviation populate' :=
  (populate cfg env_reset env_step action_space_sample).
Local Abbreviation select_action' :=
  (select_action cfg action_space_sample np_random_rand predict).
Local Abbreviation chosen_action' :=
  (chosen_action cfg action_space_sample np_random_rand predict).
Local Abbreviation reward_received' :=
  (reward_received cfg env_step action_space_sample np_random_rand predict).
Local Abbreviation done_reported' :=
  (done_reported cfg env_step action_space_sample np_random_rand predict).
Local Abbreviation interact' :=
  (interact cfg env_reset env_step action_space_sample np_random_rand predict).
Local Abbreviation learn' :=
  (learn cfg np_random_permutation predict optimize).
Local Abbreviation train_step' :=
  (train_step cfg env_reset env_step action_space_sample np_random_rand
     np_random_permutation predict optimize).
Local Abbreviation while_loop' :=
  (while_loop cfg env_reset env_step action_space_sample np_random_rand
     np_random_permutation predict optimize).
Local Abbreviation run_episode' :=
  (run_episode cfg env_reset env_step action_space_sample np_random_rand
     np_random_permutation predict optimize).
Local Abbreviation for_episodes' :=
  (for_episodes cfg env_reset env_step action_space_sample np_random_rand
     np_random_permutation predict optimize).
Local Abbreviation train' :=
  (train cfg env_reset env_step action_space_sample np_random_rand
     np_random_permutation predict optimize).
Local Abbreviation notebook' :=
  (notebook cfg env_reset env_step action_space_sample np_random_rand
     np_random_permutation predict optimize).
Local Abbreviation populated' := (populated cfg (Env := Env) (Rng := Rng)).

Implicit Types (s : Sim') (st : Train') (ep t : nat) (tr : R).

(** X10. The action of a step.  When the exploration probability exceeds
    the number drawn by [np.random.rand()], the action is the one
    [env.action_space.sample()] gives, whatever the network predicts.
    Otherwise the action generator is not consulted and the action is 0 or
    1, its predicted value is the larger of the two, and of two equal values
    the first (action 0) is taken. *)
Theorem select_action_cases :
  forall st,
    let g1 := fst (np_random_rand (rng (sim st))) in
    let u := snd (np_random_rand (rng (sim st))) in
    let Qs := predict (net st) (state (sim st)) in
    ((explore_p cfg (S (step st)) > u)%R ->
       select_action' st = action_space_sample g1)
    /\ ((explore_p cfg (S (step st)) <= u)%R ->
          fst (select_action' st) = g1
          /\ chosen_action' st < 2
          /\ nth (chosen_action' st) [fst Qs; snd Qs] 0%R = np_max Qs
          /\ (fst Qs = snd Qs -> chosen_action' st = 0)).
Proof.
  intros st g1 u Qs. subst g1 u Qs.
  unfold chosen_action, select_action, np_argmax, np_max.
  destruct (np_random_rand (rng (sim st))) as [g1 u]. simpl.
  destruct (predict (net st) (state (sim st))) as [q0 q1]. simpl.
  destruct (Rgt_dec (explore_p cfg (S (step st))) u) as [Hgt|Hle].
  - split; [reflexivity|]. intros H. lra.
  - split; [intros H; contradiction|]. intros _.
    destruct (Rlt_dec q0 q1) as [Hlt|Hge]; simpl.
    + repeat split; [lia | now rewrite Rmax_right by lra | intros; lra].
    + repeat split; [lia | now rewrite Rmax_left by lra].
Qed.

(** *** The step counter *)

Lemma train_step_counts : forall ep tr t st tr' t' st',
  train_step' ep tr t st = Ok (tr', t', st') -> step st' = S (step st).
Proof.
  intros ep tr t st tr' t' st' H. apply train_step_inv in H.
  destruct H as (s' & rl & out & g & n' & l' & _ & _ & ->). reflexivity.
Qed.

Lemma train_step_advances : forall ep tr t st tr' t' st',
  train_step' ep tr t st = Ok (tr', t', st') ->
  t' = max_steps cfg \/ t' = t + 1.
Proof.
  intros ep tr t st tr' t' st' H. apply train_step_log in H.
  destruct H as (_ & Hd & Hn). destruct (done_reported' st).
  - left. now destruct (Hd eq_refl).
  - right. now destruct (Hn eq_refl).
Qed.

Lemma while_loop_steps : forall fuel ep tr t st tr' st',
  while_loop' fuel ep tr t st = Ok (tr', st') ->
  step st <= step st' <= step st + (max_steps cfg - t)
  /\ (max_steps cfg - t <= fuel -> t < max_steps cfg -> step st < step st').
Proof.
  induction fuel as [|fuel IH]; intros ep tr t st tr' st' H; simpl in H.
  - inversion H; subst. split; [lia|]. intros; lia.
  - destruct (Nat.ltb_spec t (max_steps cfg)) as [Hlt|Hge].
    + destruct (train_step' ep tr t st) as [[[tr1 t1] st1]|e] eqn:E;
        simpl in H; [|discriminate].
      pose proof (train_step_counts _ _ _ _ _ _ _ E) as Hc.
      pose proof (train_step_advances _ _ _ _ _ _ _ E) as Ht.
      apply IH in H. destruct H as [Hb _]. split; [|intros; lia].
      destruct Ht as [-> | ->]; lia.
    + inversion H; subst. split; [lia|]. intros; lia.
Qed.

Lemma for_episodes_steps : forall eps st st',
  for_episodes' eps st = Ok st' ->
  step st <= step st' <= step st + length eps * max_steps cfg
  /\ (1 <= max_steps cfg -> step st + length eps <= step st').
Proof.
  induction eps as [|ep eps IH]; intros st st' H; simpl in H.
  - inversion H; subst. simpl. split; lia.
  - destruct (run_episode' ep st) as [[tr1 st1]|e] eqn:E; simpl in H;
      [|discriminate].
    unfold run_episode in E. apply while_loop_steps in E.
    apply IH in H. destruct E as [E1 E2], H as [H1 H2].
    rewrite Nat.sub_0_r in *. simpl length. split; [lia|].
    intros Hm. specialize (E2 (le_n _) Hm). specialize (H2 Hm). lia.
Qed.

(** X11. The global step counter counts the training steps: an episode
    raises it by at least one (when [max_steps >= 1]) and by at most
    [max_steps], and after a complete training it lies between
    [train_episodes - 1] and [(train_episodes - 1) * max_steps]. *)
Theorem step_counter_bounds :
  (forall ep st total st',
      run_episode cfg env_reset env_step action_space_sample np_random_rand
        np_random_permutation predict optimize ep st = Ok (total, st') ->
      step st <= step st' <= step st + max_steps cfg
      /\ (1 <= max_steps cfg -> step st < step st'))
  /\ (forall s n0 st',
        train cfg env_reset env_step action_space_sample np_random_rand
          np_random_permutation predict optimize s n0 = Ok st' ->
        step st' <= (train_episodes cfg - 1) * max_steps cfg
        /\ (1 <= max_steps cfg -> train_episodes cfg - 1 <= step st')).
Proof.
  split.
  - intros ep st total st' H. unfold run_episode in H.
    apply while_loop_steps in H. rewrite Nat.sub_0_r in H.
    destruct H as [H1 H2]. split; [exact H1|]. intros Hm. now apply H2.
  - intros s n0 st' H. unfold train in H. apply for_episodes_steps in H.
    unfold py_range in H. rewrite length_seq in H. simpl in H.
    destruct H as [H1 H2]. split; [lia|]. intros Hm. specialize (H2 Hm). lia.
Qed.

(** *** The memory during training *)

Lemma train_step_adds_one : forall ep tr t st tr' t' st',
  train_step' ep tr t st = Ok (tr', t', st') ->
  exists x, memory (sim st') = Memory.add (memory (sim st)) x.
Proof.
  intros ep tr t st tr' t' st' H. apply train_step_log in H.
  destruct H as (_ & Hd & Hn). destruct (done_reported' st).
  - destruct (Hd eq_refl) as (_ & _ & _ & Hm). eexists. exact Hm.
  - destruct (Hn eq_refl) as (_ & _ & _ & Hm). eexists. exact Hm.
Qed.

Lemma train_step_tracks : forall C k ep tr t st tr' t' st',
  tracks C k st ->
  train_step' ep tr t st = Ok (tr', t', st') -> tracks C k st'.
Proof.
  intros C k ep tr t st tr' t' st' [Hc Hl] H.
  pose proof (train_step_counts _ _ _ _ _ _ _ H) as Hs.
  apply train_step_adds_one in H. destruct H as [x Hm].
  unfold tracks. rewrite Hm, Hs. split; [exact Hc|].
  rewrite <- Hc in Hl. rewrite (length_add_min _ x _ Hl), Hc.
  f_equal. lia.
Qed.

Lemma while_loop_tracks : forall C k fuel ep tr t st tr' st',
  tracks C k st ->
  while_loop' fuel ep tr t st = Ok (tr', st') -> tracks C k st'.
Proof.
  intros C k. induction fuel as [|fuel IH]; intros ep tr t st tr' st' Hi H;
    simpl in H.
  - inversion H; subst. exact Hi.
  - destruct (t <? max_steps cfg); [|inversion H; subst; exact Hi].
    destruct (train_step' ep tr t st) as [[[tr1 t1] st1]|e] eqn:E;
      simpl in H; [|discriminate].
    apply (IH _ _ _ _ _ _ (train_step_tracks _ _ _ _ _ _ _ _ _ Hi E) H).
Qed.

Lemma for_episodes_tracks : forall C k eps st st',
  tracks C k st -> for_episodes' eps st = Ok st' -> tracks C k st'.
Proof.
  intros C k. induction eps as [|ep eps IH]; intros st st' Hi H; simpl in H.
  - inversion H; subst. exact Hi.
  - destruct (run_episode' ep st) as [[tr1 st1]|e] eqn:E; simpl in H;
      [|discriminate].
    unfold run_episode in E.
    apply (IH _ _ (while_loop_tracks _ _ _ _ _ _ _ _ _ Hi E) H).
Qed.

(** X12. Every training step stores exactly one transition and nothing
    else touches the memory: when the notebook completes, the memory still
    has capacity [memory_size] and holds
    [min(memory_size, pretrain_length + step)] transitions, [step] being the
    final value of the step counter. *)
Theorem memory_tracks_steps :
  forall e0 g0 n0 st',
    notebook cfg env_reset env_step action_space_sample np_random_rand
      np_random_permutation predict optimize e0 g0 n0 = Ok st' ->
    Memory.maxlen (memory (sim st')) = memory_size cfg
    /\ length (Memory.buffer (memory (sim st')))
       = Nat.min (memory_size cfg) (pretrain_length cfg + step st').
Proof.
  intros e0 g0 n0 st' H. unfold notebook, train in H.
  apply (for_episodes_tracks (memory_size cfg) (pretrain_length cfg)) in H;
    [exact H|].
  unfold tracks, fresh. simpl. rewrite Nat.add_0_r.
  apply populate_memory.
Qed.

(** *** The episode log *)

Lemma for_episodes_log_filter : forall n a st st',
  for_episodes' (seq a n) st = Ok st' ->
  exists l keep,
    rewards_list st' = rewards_list st ++ l
    /\ map fst l = filter keep (seq a n).
Proof.
  induction n as [|n IH]; intros a st st' H; simpl in H.
  - inversion H; subst. exists [], (fun _ => false).
    split; [now rewrite app_nil_r | reflexivity].
  - destruct (run_episode' a st) as [[tr1 st1]|e] eqn:E; simpl in H;
      [|discriminate].
    apply IH in H. destruct H as (l' & keep' & Hl & Hk).
    assert (Hext : forall b : bool,
               filter (fun x => if x =? a then b else keep' x) (seq (S a) n)
               = filter keep' (seq (S a) n)).
    { intros b. apply filter_ext_in. intros x Hx. apply in_seq in Hx.
      destruct (Nat.eqb_spec x a); [lia | reflexivity]. }
    unfold run_episode in E. apply while_loop_log in E.
    destruct E as [E|E].
    + exists l', (fun x => if x =? a then false else keep' x).
      split; [now rewrite Hl, E|].
      simpl. rewrite Nat.eqb_refl, Hext. exact Hk.
    + exists ((a, tr1) :: l'), (fun x => if x =? a then true else keep' x).
      split; [rewrite Hl, E, <- app_assoc; reflexivity|].
      simpl. rewrite Nat.eqb_refl, Hext, Hk. reflexivity.
Qed.

(** X13. When training completes, the episode numbers in the log are a
    selection of [1, 2, ..., train_episodes - 1] in increasing order: no
    episode is logged twice, and the log has at most [train_episodes - 1]
    entries. *)
Theorem episode_log_ordered :
  forall s n0 st',
    train cfg env_reset env_step action_space_sample np_random_rand
      np_random_permutation predict optimize s n0 = Ok st' ->
    (exists keep,
        map fst (rewards_list st')
        = filter keep (seq 1 (train_episodes cfg - 1)))
    /\ NoDup (map fst (rewards_list st'))
    /\ length (rewards_list st') <= train_episodes cfg - 1.
Proof.
  intros s n0 st' H. unfold train, py_range in H.
  apply for_episodes_log_filter in H. destruct H as (l & keep & Hl & Hk).
  simpl in Hl. subst l.
  split; [now exists keep|]. split.
  - rewrite Hk. apply NoDup_filter, seq_NoDup.
  - rewrite <- (length_map fst), Hk.
    eapply Nat.le_trans; [apply filter_length_le|].
    rewrite length_seq. lia.
Qed.

(** *** The total reward of an episode *)

Section BoundedRewards.

Hypothesis rewards_in_unit :
  forall e a, (0 <= snd (fst (snd (env_step e a))) <= 1)%R.

Lemma while_loop_total : forall fuel ep tr t st tr' st',
  while_loop' fuel ep tr t st = Ok (tr', st') ->
  (tr <= tr' <= tr + INR (max_steps cfg - t))%R.
Proof.
  induction fuel as [|fuel IH]; intros ep tr t st tr' st' H; simpl in H.
  - inversion H; subst. pose proof (pos_INR (max_steps cfg - t)). lra.
  - destruct (Nat.ltb_spec t (max_steps cfg)) as [Hlt|Hge].
    + destruct (train_step' ep tr t st) as [[[tr1 t1] st1]|e] eqn:E;
        simpl in H; [|discriminate].
      pose proof (train_step_advances _ _ _ _ _ _ _ E) as Ht.
      apply train_step_log in E. destruct E as (Htr & _).
      assert (Hr : (0 <= reward_received' st <= 1)%R)
        by (unfold reward_received, response; apply rewards_in_unit).
      assert (HS : INR (max_steps cfg - t)
                   = (INR (max_steps cfg - (t + 1)) + 1)%R).
      { replace (max_steps cfg - t) with (S (max_steps cfg - (t + 1))) by lia.
        apply S_INR. }
      pose proof (pos_INR (max_steps cfg - (t + 1))) as Hp.
      destruct Ht as [-> | ->].
      * rewrite while_loop_exit in H by lia. inversion H; subst. lra.
      * apply IH in H. lra.
    + inversion H; subst. pose proof (pos_INR (max_steps cfg - t)). lra.
Qed.

Lemma for_episodes_totals : forall eps st st',
  for_episodes' eps st = Ok st' ->
  Forall (fun e => 0 <= snd e <= INR (max_steps cfg))%R (rewards_list st) ->
  Forall (fun e => 0 <= snd e <= INR (max_steps cfg))%R (rewards_list st').
Proof.
  induction eps as [|ep eps IH]; intros st st' H Hall; simpl in H.
  - inversion H; subst. exact Hall.
  - destruct (run_episode' ep st) as [[tr1 st1]|e] eqn:E; simpl in H;
      [|discriminate].
    apply (IH _ _ H). unfold run_episode in E.
    pose proof (while_loop_total _ _ _ _ _ _ _ E) as Hb.
    rewrite Nat.sub_0_r in Hb.
    apply while_loop_log in E. destruct E as [E|E]; rewrite E; [exact Hall|].
    apply Forall_app. split; [exact Hall|].
    constructor; [simpl; lra | constructor].
Qed.

(** X14. If the simulator pays between 0 and 1 at every step (Cart-Pole
    pays 1), every total reward in the episode log lies between 0 and
    [max_steps]. *)
Theorem logged_total_bounded :
  forall s n0 st' ep total,
    train cfg env_reset env_step action_space_sample np_random_rand
      np_random_permutation predict optimize s n0 = Ok st' ->
    In (ep, total) (rewards_list st') ->
    (0 <= total <= INR (max_steps cfg))%R.
Proof.
  intros s n0 st' ep total H Hin. unfold train in H.
  apply for_episodes_totals in H; [|constructor].
  rewrite Forall_forall in H. apply (H (ep, total) Hin).
Qed.

End BoundedRewards.

(** *** How the training cell can fail *)

Section GenuinePermutations.

Hypothesis batch_nonempty : 1 <= batch_size cfg.
Hypothesis permutation_genuine :
  forall g n, Permutation (snd (np_random_permutation g n)) (seq 0 n).

Lemma learn_succeeds : forall s n,
  populated' s -> exists r, learn' s n = Ok r.
Proof.
  intros s n [_ Hlen]. unfold learn, Memory.sample, np_random_choice.
  pose proof (permutation_genuine (rng s)
                (length (Memory.buffer (memory s)))) as Hperm.
  destruct (np_random_permutation (rng s) (length (Memory.buffer (memory s))))
    as [g perm]. simpl in Hperm.
  destruct (Nat.ltb_spec (length (Memory.buffer (memory s))) (batch_size cfg));
    [lia|].
  simpl.
  assert (Hrange : forall i, In i (firstn (batch_size cfg) perm) ->
                             i < length (Memory.buffer (memory s))).
  { intros i Hi. apply in_firstn in Hi.
    apply (Permutation_in i Hperm), in_seq in Hi. lia. }
  destruct (mapM_getitem_gather (Memory.buffer (memory s))
              (firstn (batch_size cfg) perm) Hrange) as [Hmap Hall].
  rewrite Hmap. simpl.
  apply Forall2_length in Hall. rewrite length_firstn in Hall.
  rewrite (Permutation_length Hperm), length_seq in Hall.
  destruct (gather (Memory.buffer (memory s)) (firstn (batch_size cfg) perm))
    as [|b batch]; [simpl in Hall; lia|].
  unfold train_on_batch. simpl.
  destruct (optimize n _ _ _) as [n' l']. simpl. eexists. reflexivity.
Qed.

Lemma train_step_outcome : forall ep tr t st,
  populated' (sim st) ->
  (exists tr' t' st',
      train_step' ep tr t st = Ok (tr', t', st')
      /\ populated' (sim st') /\ loss st' <> None)
  \/ (train_step' ep tr t st = Raise NameError
      /\ done_reported' st = true /\ loss st = None).
Proof.
  intros ep tr t st Hp.
  destruct (train_step' ep tr t st) as [[[tr' t'] st']|e] eqn:E.
  - left. exists tr', t', st'. split; [reflexivity|]. split.
    + apply (proj2 (train_step_safe _ _ _ _ _ _ _ _ _ _ _ ep tr t st Hp)
               tr' t' st' E).
    + apply train_step_inv in E.
      destruct E as (s' & rl & out & g & n' & l' & _ & _ & ->). discriminate.
  - right. unfold train_step in E.
    destruct (interact' ep tr t st) as [[[[[tr1 t1] s'] rl] out]|e'] eqn:Ei;
      simpl in E.
    + assert (Hp' : populated' s')
        by (eapply interact_populated; [exact Hp | exact Ei]).
      destruct (learn_succeeds s' (net st) Hp') as [[[g n'] l'] El].
      rewrite El in E. discriminate.
    + inversion E; subst. rewrite interact_spec in Ei. simpl in Ei.
      destruct (done_reported' st); [|discriminate].
      destruct (loss st); [discriminate|]. inversion Ei. auto.
Qed.

Lemma while_loop_succeeds : forall fuel ep tr t st,
  populated' (sim st) -> loss st <> None ->
  exists tr' st',
    while_loop' fuel ep tr t st = Ok (tr', st')
    /\ populated' (sim st') /\ loss st' <> None.
Proof.
  induction fuel as [|fuel IH]; intros ep tr t st Hp Hl; simpl.
  - exists tr, st. auto.
  - destruct (t <? max_steps cfg); [|exists tr, st; auto].
    destruct (train_step_outcome ep tr t st Hp)
      as [(tr1 & t1 & st1 & E & Hp1 & Hl1) | (_ & _ & Hn)]; [|contradiction].
    rewrite E. simpl. now apply IH.
Qed.

Lemma while_loop_outcome : forall fuel ep tr t st,
  populated' (sim st) ->
  (exists tr' st',
      while_loop' fuel ep tr t st = Ok (tr', st')
      /\ populated' (sim st') /\ (loss st' <> None \/ st' = st))
  \/ (while_loop' fuel ep tr t st = Raise NameError
      /\ done_reported' st = true /\ loss st = None).
Proof.
  intros [|fuel] ep tr t st Hp; simpl.
  - left. exists tr, st. auto.
  - destruct (t <? max_steps cfg); [|left; exists tr, st; auto].
    destruct (train_step_outcome ep tr t st Hp)
      as [(tr1 & t1 & st1 & E & Hp1 & Hl1) | (E & Hd & Hn)].
    + left. rewrite E. simpl.
      destruct (while_loop_succeeds fuel ep tr1 t1 st1 Hp1 Hl1)
        as (tr' & st' & E' & Hp' & Hl').
      exists tr', st'. auto.
    + right. rewrite E. auto.
Qed.

Lemma for_episodes_succeeds : forall eps st,
  populated' (sim st) -> loss st <> None ->
  exists st', for_episodes' eps st = Ok st'.
Proof.
  induction eps as [|ep eps IH]; intros st Hp Hl; simpl.
  - now exists st.
  - unfold run_episode.
    destruct (while_loop_succeeds (max_steps cfg) ep 0%R 0 st Hp Hl)
      as (tr' & st' & E & Hp' & Hl').
    rewrite E. simpl. now apply IH.
Qed.

Lemma for_episodes_outcome : forall eps st,
  populated' (sim st) ->
  (exists st', for_episodes' eps st = Ok st')
  \/ (for_episodes' eps st = Raise NameError
      /\ done_reported' st = true /\ loss st = None).
Proof.
  induction eps as [|ep eps IH]; intros st Hp; simpl.
  - left. now exists st.
  - unfold run_episode.
    destruct (while_loop_outcome (max_steps cfg) ep 0%R 0 st Hp)
      as [(tr' & st' & E & Hp' & [Hl' | ->]) | (E & Hd & Hn)].
    + left. rewrite E. simpl. now apply for_episodes_succeeds.
    + rewrite E. simpl. now apply IH.
    + right. rewrite E. auto.
Qed.

(** X15. With a memory and a pre-population that can hold a mini-batch
    ([1 <= batch_size <= memory_size] and [batch_size <= pretrain_length])
    and a generator that draws genuine permutations, the notebook has a
    single way to fail: the [NameError] of a simulator that reports [done]
    at the very first training step.  If it does not, the whole training
    runs to completion. *)
Theorem training_failure_modes :
  batch_size cfg <= memory_size cfg ->
  batch_size cfg <= pretrain_length cfg ->
  forall e0 g0 n0,
    (forall e,
        notebook' e0 g0 n0 = Raise e ->
        e = NameError
        /\ done_reported' (fresh (populate' e0 g0) n0) = true)
    /\ (done_reported' (fresh (populate' e0 g0) n0) = false ->
          exists st', notebook' e0 g0 n0 = Ok st').
Proof.
  intros Hcap Hpre e0 g0 n0.
  assert (Hp : populated' (populate' e0 g0)).
  { destruct (populate_memory cfg Env env_reset env_step Rng
                action_space_sample e0 g0) as [Hm Hl].
    unfold populated. rewrite Hm, Hl. lia. }
  unfold notebook, train.
  destruct (for_episodes_outcome (py_range 1 (train_episodes cfg))
              (fresh (populate' e0 g0) n0) Hp)
    as [(st' & E) | (E & Hd & _)].
  - split; [intros e He; rewrite E in He; discriminate|].
    intros _. now exists st'.
  - split.
    + intros e He. rewrite E in He. inversion He. auto.
    + intros Hd'. rewrite Hd in Hd'. discriminate.
Qed.

End GenuinePermutations.

(** *** Too few transitions for the first mini-batch *)

(** X16. If even after the first training step the memory cannot hold a
    mini-batch ([min(memory_size, pretrain_length + 1) < batch_size]), the
    notebook (with at least one episode of at least one step to run) stops
    at its first training step: with the insufficient-population
    [ValueError] of [sample], or with the [NameError] when that step ended
    an episode. *)
Theorem first_sample_underpopulated :
  Nat.min (memory_size cfg) (pretrain_length cfg + 1) < batch_size cfg ->
  2 <= train_episodes cfg ->
  1 <= max_steps cfg ->
  forall e0 g0 n0,
    (done_reported' (fresh (populate' e0 g0) n0) = false ->
       notebook' e0 g0 n0 = Raise (ValueError larger_sample_than_population))
    /\ (done_reported' (fresh (populate' e0 g0) n0) = true ->
          notebook' e0 g0 n0 = Raise NameError).
Proof.
  intros Hsmall HM HT e0 g0 n0.
  destruct (populate_memory cfg Env env_reset env_step Rng
              action_space_sample e0 g0) as [Hm Hl].
  assert (Hrun : forall e,
             train_step' 1 0%R 0 (fresh (populate' e0 g0) n0) = Raise e ->
             notebook' e0 g0 n0 = Raise e).
  { intros e He. unfold notebook, train.
    rewrite py_range_1 by exact HM. simpl. unfold run_episode.
    destruct (max_steps cfg) as [|T] eqn:ET; [lia|].
    simpl. rewrite ET. simpl. rewrite He. reflexivity. }
  split; intros Hd; apply Hrun.
  - unfold train_step. rewrite interact_spec. simpl. rewrite Hd. simpl.
    unfold learn, Memory.sample, np_random_choice. simpl.
    destruct (np_random_permutation _ _) as [g perm].
    rewrite length_deque_append, Hl, Hm.
    destruct (Nat.ltb_spec (memory_size cfg)
                (Nat.min (memory_size cfg) (pretrain_length cfg) + 1)).
    + destruct (Nat.ltb_spec
                  (Nat.min (memory_size cfg) (pretrain_length cfg))
                  (batch_size cfg)); [reflexivity | lia].
    + destruct (Nat.ltb_spec
                  (Nat.min (memory_size cfg) (pretrain_length cfg) + 1)
                  (batch_size cfg)); [reflexivity | lia].
  - apply train_step_raise_name; [exact Hd | reflexivity].
Qed.

End TrainingFacts.

(** ** The shape of the stored transitions *)

Section ShapeFacts.

Variable cfg : Config.
Variable Env : Type.
Variable env_reset : Env -> Env.
Variable env_step : Env -> nat -> Env * (State * R * bool).
Variable Rng : Type.
Variable action_space_sample : Rng -> Rng * nat.
Variable np_random_rand : Rng -> Rng * R.
Variable np_random_permutation : Rng -> nat -> Rng * list nat.
Variable Net : Type.
Variable predict : Net -> State -> R * R.
Variable optimize : Net -> list State -> list R -> list nat -> Net * R.

(** The simulator's observations all have [d] components. *)
Variable d : nat.
Hypothesis observation_shape :
  forall e a, length (fst (fst (snd (env_step e a)))) = d.

Local Abbreviation Sim' := (Sim Env Rng).
Local Abbreviation Train' := (Train Env Rng Net).
Local Abbreviation start_new_episode' :=
  (start_new_episode env_reset env_step action_space_sample).
Local Abbreviation pretrain_step' :=
  (pretrain_step env_reset env_step action_space_sample).
Local Abbreviation populate' :=
  (populate cfg env_reset env_step action_space_sample).
Local Abbreviation interact' :=
  (interact cfg env_reset env_step action_space_sample np_random_rand predict).
Local Abbreviation train_step' :=
  (train_step cfg env_reset env_step action_space_sample np_random_rand
     np_random_permutation predict optimize).
Local Abbreviation while_loop' :=
  (while_loop cfg env_reset env_step action_space_sample np_random_rand
     np_random_permutation predict optimize).
Local Abbreviation for_episodes' :=
  (for_episodes cfg env_reset env_step action_space_sample np_random_rand
     np_random_permutation predict optimize).
Local Abbreviation train' :=
  (train cfg env_reset env_step action_space_sample np_random_rand
     np_random_permutation predict optimize).

(** The current state and every stored transition have the simulator's
    shape. *)
Local Abbreviation well_shaped s :=
  (length (state s) = d /\ Forall (shaped d) (Memory.buffer (memory s))).

Lemma Forall_add : forall (m : Memory.t Transition) (x : Transition),
  Forall (shaped d) (Memory.buffer m) -> shaped d x ->
  Forall (shaped d) (Memory.buffer (Memory.add m x)).
Proof.
  intros m x Hm Hx. simpl. unfold Memory.deque_append.
  assert (H : Forall (shaped d) (Memory.buffer m ++ [x])).
  { apply Forall_app. split; [exact Hm | now constructor]. }
  destruct (Memory.maxlen m <? length (Memory.buffer m ++ [x])); [|exact H].
  destruct (Memory.buffer m ++ [x]); [constructor|].
  now inversion H.
Qed.

Lemma length_np_zeros : forall k, length (np_zeros k) = k.
Proof. intros k. apply repeat_length. Qed.

Lemma start_new_episode_shape : forall e g,
  length (snd (start_new_episode' e g)) = d.
Proof.
  intros e g. unfold start_new_episode.
  destruct (action_space_sample g) as [g1 a].
  pose proof (observation_shape (env_reset e) a) as H.
  destruct (env_step (env_reset e) a) as [e2 [[s r] dn]]. exact H.
Qed.

Lemma pretrain_step_shape : forall s : Sim',
  well_shaped s -> well_shaped (pretrain_step' s).
Proof.
  intros s [Hs Hm]. unfold pretrain_step.
  destruct (action_space_sample (rng s)) as [g1 a].
  pose proof (observation_shape (env s) a) as Ho.
  destruct (env_step (env s) a) as [e1 [[ns r] dn]]. simpl in Ho.
  destruct dn.
  - pose proof (start_new_episode_shape e1 g1) as Hn.
    destruct (start_new_episode' e1 g1) as [[e2 g2] s2].
    simpl in Hn |- *.
    split; [exact Hn|]. apply Forall_add; [exact Hm|].
    split; simpl; [exact Hs | now rewrite length_np_zeros].
  - simpl. split; [exact Ho|]. apply Forall_add; [exact Hm|].
    split; simpl; assumption.
Qed.

Lemma interact_shape : forall ep tr t (st : Train') tr' t' s' rl out,
  well_shaped (sim st) ->
  interact' ep tr t st = Ok (tr', t', s', rl, out) ->
  well_shaped s'.
Proof.
  intros ep tr t st tr' t' s' rl out [Hs Hm] H.
  rewrite interact_spec in H. simpl in H.
  destruct (done_reported _ _ _ _ _ st).
  - destruct (loss st); [|discriminate].
    revert Hs Hm. inversion H; subst. intros Hs Hm. simpl.
    split; [apply start_new_episode_shape|].
    apply Forall_add; [exact Hm|].
    split; simpl; [exact Hs | now rewrite length_np_zeros].
  - revert Hs Hm. inversion H; subst. intros Hs Hm. simpl.
    assert (Ho : length (observed cfg env_step action_space_sample
                           np_random_rand predict st) = d)
      by (unfold observed, response; apply observation_shape).
    split; [exact Ho|]. apply Forall_add; [exact Hm|].
    split; simpl; assumption.
Qed.

Lemma train_step_shape : forall ep tr t (st : Train') tr' t' st',
  well_shaped (sim st) ->
  train_step' ep tr t st = Ok (tr', t', st') ->
  well_shaped (sim st').
Proof.
  intros ep tr t st tr' t' st' Hw H. apply train_step_inv in H.
  destruct H as (s' & rl & out & g & n' & l' & Hi & _ & ->).
  apply (interact_shape _ _ _ _ _ _ _ _ _ Hw) in Hi. exact Hi.
Qed.

Lemma while_loop_shape : forall fuel ep tr t (st : Train') tr' st',
  well_shaped (sim st) ->
  while_loop' fuel ep tr t st = Ok (tr', st') ->
  well_shaped (sim st').
Proof.
  induction fuel as [|fuel IH]; intros ep tr t st tr' st' Hw H; simpl in H.
  - inversion H; subst. exact Hw.
  - destruct (t <? max_steps cfg); [|inversion H; subst; exact Hw].
    destruct (train_step' ep tr t st) as [[[tr1 t1] st1]|e] eqn:E;
      simpl in H; [|discriminate].
    apply (IH _ _ _ _ _ _ (train_step_shape _ _ _ _ _ _ _ Hw E) H).
Qed.

Lemma for_episodes_shape : forall eps (st st' : Train'),
  well_shaped (sim st) ->
  for_episodes' eps st = Ok st' ->
  well_shaped (sim st').
Proof.
  induction eps as [|ep eps IH]; intros st st' Hw H; simpl in H.
  - inversion H; subst. exact Hw.
  - destruct (run_episode _ _ _ _ _ _ _ _ ep st) as [[tr1 st1]|e] eqn:E;
      simpl in H; [|discriminate].
    unfold run_episode in E.
    apply (IH _ _ (while_loop_shape _ _ _ _ _ _ _ Hw E) H).
Qed.

(** X17. If every observation of the simulator has [d] components, then
    after the pre-population, and after a training that started from such
    variables, the current state and both vectors of every transition in
    the memory have [d] components; the zero vector stored at the end of an
    episode has them too.  So the rows of a mini-batch all have the shape of
    [states[0]], the shape the zero test compares with. *)
Theorem transitions_keep_shape :
  (forall e0 g0,
      well_shaped (populate cfg env_reset env_step action_space_sample e0 g0))
  /\ (forall (s : Sim') n0 st',
        well_shaped s ->
        train cfg env_reset env_step action_space_sample np_random_rand
          np_random_permutation predict optimize s n0 = Ok st' ->
        well_shaped (sim st')).
Proof.
  split.
  - intros e0 g0. unfold populate.
    pose proof (start_new_episode_shape e0 g0) as Hs.
    destruct (start_new_episode' e0 g0) as [[e g] s]. simpl in Hs.
    induction (pretrain_length cfg) as [|k IH].
    + simpl. split; [exact Hs | constructor].
    + rewrite Nat.iter_succ. now apply pretrain_step_shape.
  - intros s n0 st' Hw H. unfold train in H.
    apply (for_episodes_shape _ (fresh s n0) st' Hw H).
Qed.

End ShapeFacts.

(** ** Runs of the whole notebook on the concrete collaborators *)

Lemma small_select_action :
  forall (Env : Type) (st : Train Env Demo.Rng Demo.Net),
    select_action Demo.small Demo.action_space_sample Demo.np_random_rand
      Demo.predict st = (rng (sim st), 0).
Proof.
  intros Env st. unfold select_action. simpl.
  destruct (Rgt_dec (explore_p Demo.small (S (step st))) 0) as [_|Hn];
    [reflexivity|].
  exfalso. apply Hn.
  assert (H1 : (0 <= decay_rate Demo.small)%R) by (simpl; lra).
  assert (H2 : (explore_stop Demo.small <= explore_start Demo.small)%R)
    by (simpl; lra).
  pose proof (explore_p_bounds Demo.small (S (step st)) H1 H2) as Hb.
  simpl in Hb. lra.
Qed.

#[local] Opaque select_action explore_p.

Ltac small_step :=
  unfold train_step, interact; rewrite small_select_action; cbn.

(** The notebook with the small hyperparameters on a simulator that never
    ends an episode. *)
Lemma demo_notebook_completes :
  exists st',
    notebook Demo.small Demo.env_reset Demo.env_step Demo.action_space_sample
      Demo.np_random_rand Demo.np_random_permutation Demo.predict
      Demo.optimize [] tt tt = Ok st'
    /\ step st' = 4.
Proof.
  eexists. split.
  - unfold notebook, populate, train, fresh, py_range. cbn.
    unfold run_episode. cbn. small_step. small_step.
    unfold run_episode. cbn. small_step. small_step. reflexivity.
  - reflexivity.
Qed.

Lemma memory_tracks_steps_witness :
  exists st',
    notebook Demo.small Demo.env_reset Demo.env_step Demo.action_space_sample
      Demo.np_random_rand Demo.np_random_permutation Demo.predict
      Demo.optimize [] tt tt = Ok st'
    /\ length (Memory.buffer (memory (sim st')))
       = Nat.min (memory_size Demo.small)
           (pretrain_length Demo.small + step st').
Proof.
  destruct demo_notebook_completes as (st' & E & _).
  exists st'. split; [exact E|].
  exact (proj2 (memory_tracks_steps Demo.small Demo.Env Demo.env_reset
                  Demo.env_step Demo.Rng Demo.action_space_sample
                  Demo.np_random_rand Demo.np_random_permutation Demo.Net
                  Demo.predict Demo.optimize [] tt tt st' E)).
Defined.

Lemma episode_log_ordered_witness :
  exists st',
    Demo.train
      (Demo.sim0 [(Demo.s1, 1%R, false); (Demo.s1, 1%R, true);
                  (Demo.s0, 1%R, false);
                  (Demo.s1, 1%R, false); (Demo.s1, 1%R, true)]) tt
    = Ok st'
    /\ NoDup (map fst (rewards_list st')).
Proof.
  destruct demo_three_episodes_configured as (st' & E & _).
  exists st'. split; [exact E|].
  exact (proj1 (proj2
           (episode_log_ordered Demo.small Demo.Env Demo.env_reset
              Demo.env_step Demo.Rng Demo.action_space_sample
              Demo.np_random_rand Demo.np_random_permutation Demo.Net
              Demo.predict Demo.optimize _ tt st' E))).
Defined.

(** Training on the ticking simulator: the second episode ends at its
    first step. *)
Lemma ticking_training_completes :
  exists st',
    train Demo.small Ticking.env_reset Ticking.env_step
      Demo.action_space_sample Demo.np_random_rand Demo.np_random_permutation
      Demo.predict Demo.optimize Ticking.sim0 tt = Ok st'
    /\ rewards_list st' = [(2, (0 + 1)%R)].
Proof.
  eexists. split.
  - unfold train, fresh, py_range. cbn.
    unfold run_episode. cbn. small_step. small_step.
    unfold run_episode. cbn. small_step. reflexivity.
  - reflexivity.
Qed.

Lemma logged_total_bounded_witness :
  (forall (e : Ticking.Env) (a : nat),
      (0 <= snd (fst (snd (Ticking.env_step e a))) <= 1)%R)
  /\ exists st',
       train Demo.small Ticking.env_reset Ticking.env_step
         Demo.action_space_sample Demo.np_random_rand
         Demo.np_random_permutation Demo.predict Demo.optimize
         Ticking.sim0 tt = Ok st'
       /\ In (2, (0 + 1)%R) (rewards_list st')
       /\ (0 <= 0 + 1 <= INR (max_steps Demo.small))%R.
Proof.
  assert (H : forall (e : Ticking.Env) (a : nat),
             (0 <= snd (fst (snd (Ticking.env_step e a))) <= 1)%R)
    by (intros; simpl; lra).
  split; [exact H|].
  destruct ticking_training_completes as (st' & E & Hl).
  assert (Hin : In (2, (0 + 1)%R) (rewards_list st'))
    by (rewrite Hl; now left).
  exists st'. split; [exact E|]. split; [exact Hin|].
  exact (logged_total_bounded Demo.small Ticking.Env Ticking.env_reset
           Ticking.env_step Demo.Rng Demo.action_space_sample
           Demo.np_random_rand Demo.np_random_permutation Demo.Net
           Demo.predict Demo.optimize H Ticking.sim0 tt st' 2 (0 + 1)%R E Hin).
Defined.

Lemma training_failure_modes_witness :
  1 <= batch_size Demo.small
  /\ (forall (g : Demo.Rng) (n : nat),
        Permutation (snd (Demo.np_random_permutation g n)) (seq 0 n))
  /\ batch_size Demo.small <= memory_size Demo.small
  /\ batch_size Demo.small <= pretrain_length Demo.small
  /\ exists st',
       notebook Demo.small Demo.env_reset Demo.env_step
         Demo.action_space_sample Demo.np_random_rand
         Demo.np_random_permutation Demo.predict Demo.optimize [] tt tt
       = Ok st'.
Proof.
  assert (H1 : 1 <= batch_size Demo.small) by (simpl; lia).
  assert (H2 : forall (g : Demo.Rng) (n : nat),
             Permutation (snd (Demo.np_random_permutation g n)) (seq 0 n))
    by (intros; apply Permutation_refl).
  assert (H3 : batch_size Demo.small <= memory_size Demo.small)
    by (simpl; lia).
  assert (H4 : batch_size Demo.small <= pretrain_length Demo.small)
    by (simpl; lia).
  repeat (split; [assumption|]).
  exact (proj2 (training_failure_modes Demo.small Demo.Env Demo.env_reset
                  Demo.env_step Demo.Rng Demo.action_space_sample
                  Demo.np_random_rand Demo.np_random_permutation Demo.Net
                  Demo.predict Demo.optimize H1 H2 H3 H4 [] tt tt)
           eq_refl).
Defined.

Lemma first_sample_underpopulated_witness :
  Nat.min (memory_size Ticking.starved) (pretrain_length Ticking.starved + 1)
  < batch_size Ticking.starved
  /\ 2 <= train_episodes Ticking.starved
  /\ 1 <= max_steps Ticking.starved
  /\ notebook Ticking.starved Demo.env_reset Demo.env_step
       Demo.action_space_sample Demo.np_random_rand
       Demo.np_random_permutation Demo.predict Demo.optimize [] tt tt
     = Raise (ValueError larger_sample_than_population).
Proof.
  assert (H1 : Nat.min (memory_size Ticking.starved)
                 (pretrain_length Ticking.starved + 1)
               < batch_size Ticking.starved) by (simpl; lia).
  assert (H2 : 2 <= train_episodes Ticking.starved) by (simpl; lia).
  assert (H3 : 1 <= max_steps Ticking.starved) by (simpl; lia).
  repeat (split; [assumption|]).
  exact (proj1 (first_sample_underpopulated Ticking.starved Demo.Env
                  Demo.env_reset Demo.env_step Demo.Rng
                  Demo.action_space_sample Demo.np_random_rand
                  Demo.np_random_permutation Demo.Net Demo.predict
                  Demo.optimize H1 H2 H3 [] tt tt)
           eq_refl).
Defined.

Lemma transitions_keep_shape_witness :
  (forall (e : Ticking.Env) (a : nat),
      length (fst (fst (snd (Ticking.env_step e a)))) = 4)
  /\ exists st',
       train Demo.small Ticking.env_reset Ticking.env_step
         Demo.action_space_sample Demo.np_random_rand
         Demo.np_random_permutation Demo.predict Demo.optimize
         Ticking.sim0 tt = Ok st'
       /\ Forall (shaped 4) (Memory.buffer (memory (sim st'))).
Proof.
  assert (H : forall (e : Ticking.Env) (a : nat),
             length (fst (fst (snd (Ticking.env_step e a)))) = 4)
    by (intros; reflexivity).
  split; [exact H|].
  destruct ticking_training_completes as (st' & E & _).
  exists st'. split; [exact E|].
  exact (proj2 (proj2 (transitions_keep_shape Demo.small Ticking.Env
                         Ticking.env_reset Ticking.env_step Demo.Rng
                         Demo.action_space_sample Demo.np_random_rand
                         Demo.np_random_permutation Demo.Net Demo.predict
                         Demo.optimize 4 H)
                  Ticking.sim0 tt st'
                  (conj eq_refl (Forall_nil (shaped 4))) E)).
Defined.

Lemma running_mean_zero_window_witness :
  [1%R] <> [] /\ running_mean [1%R] 0 = None.
Proof.
  assert (H : [1%R] <> []) by discriminate.
  split; [exact H|].
  exact (proj1 running_mean_zero_window [1%R] H).
Defined.

Lemma select_action_cases_witness :
  (explore_p Demo.small (S (step (Demo.train0 [] None)))
   > snd (Demo.np_random_rand (rng (sim (Demo.train0 [] None)))))%R
  /\ Demo.select_action (Demo.train0 [] None) = (tt, 0).
Proof.
  assert (H1 : (0 <= decay_rate Demo.small)%R) by (simpl; lra).
  assert (H2 : (explore_stop Demo.small <= explore_start Demo.small)%R)
    by (simpl; lra).
  pose proof (explore_p_bounds Demo.small
                (S (step (Demo.train0 [] None))) H1 H2) as Hb.
  assert (H : (explore_p Demo.small (S (step (Demo.train0 [] None)))
               > snd (Demo.np_random_rand
                        (rng (sim (Demo.train0 [] None)))))%R)
    by (simpl in Hb |- *; lra).
  split; [exact H|].
  exact (proj1 (select_action_cases Demo.small Demo.Env Demo.Rng
                  Demo.action_space_sample Demo.np_random_rand Demo.Net
                  Demo.predict (Demo.train0 [] None)) H).
Defined.

Lemma step_counter_bounds_witness :
  exists total st',
    Demo.run_episode 1 (Demo.train0 [] None) = Ok (total, st')
    /\ step (Demo.train0 [] None) <= step st'
       <= step (Demo.train0 [] None) + max_steps Demo.small.
Proof.
  do 2 eexists. split; [exact demo_episode_cut_off|].
  exact (proj1 (proj1
           (step_counter_bounds Demo.small Demo.Env Demo.env_reset
              Demo.env_step Demo.Rng Demo.action_space_sample
              Demo.np_random_rand Demo.np_random_permutation Demo.Net
              Demo.predict Demo.optimize)
           1 (Demo.train0 [] None) _ _ demo_episode_cut_off)).
Defined.
